(** * iconsur: the icon image pipeline of [src/index.js]

    A shallow embedding of the three pieces of [src/index.js] that carry
    the engineering of the tool:

    - the planar-to-interleaved sample reordering of the JPEG 2000
      format plug-in ([jp2Format.decode]);
    - the selection of one bitmap among the entries of an [.icns]
      container, with its fallback to the file's own bytes;
    - the adaptive compositor of the [set] command: alpha check, resize
      policy, centering offset, assembly and the bitwise-AND masking
      scan.

    JavaScript numbers that are used as array indices are modelled as
    exact rationals ([Q]); every quantity that occurs there is a small
    dyadic rational, which binary64 represents exactly.  The sizes
    requested from the resize are exact rationals; the paste offset of
    line 189 is computed in binary64, as the program computes it.
    Buffers and typed arrays are lists indexed with
    stdpp's [!!] and updated with [<[_:=_]>]; packed pixels are
    integers in [0, 2^32).

    The canvas library (Jimp) and the container library (icns-lib) are
    dependencies: their functions are parameters where only their
    result matters, and are modelled from the specification where a
    property depends on what they do. *)

From Stdlib Require Import ZArith QArith Qround Lia List String Sorted Permutation.
From Stdlib Require Import PrimFloat.
From Stdlib Require Uint63.
From stdpp Require Import base list.

Local Open Scope Z_scope.

(** ** JavaScript primitives used by the source *)

Module Js.

(** [Math.round]: the nearest integer, a tie going up. *)
Definition Math_round (q : Q) : Z := Qfloor (q + (1 # 2)).

(** Integer coercions of the bitwise operators and of buffer stores. *)
Definition ToUint8 (v : Z) : Z := v mod 256.
Definition ToUint32 (v : Z) : Z := v mod 2 ^ 32.
Definition ToInt32 (v : Z) : Z :=
  let u := v mod 2 ^ 32 in if u <? 2 ^ 31 then u else u - 2 ^ 32.

(** [a & b]: both operands are coerced to signed 32-bit integers. *)
Definition bitand (a b : Z) : Z := Z.land (ToInt32 a) (ToInt32 b).

(** [v >>> 0]: reinterpret as an unsigned 32-bit integer. *)
Definition ushr0 (v : Z) : Z := ToUint32 v.

(** [data[q]] on a typed array: only an integer index inside the
    array holds a value, any other property read is [undefined]. *)
Definition typed_get (data : list Z) (q : Q) : option Z :=
  let k := Qfloor q in
  if Qeq_bool q (inject_Z k) && (0 <=? k)
  then data !! Z.to_nat k
  else None.

(** [v || 0] on a number or [undefined]: [undefined] and [0] are the
    falsy cases and both give [0]. *)
Definition or_zero (o : option Z) : Z :=
  match o with
  | Some v => if v =? 0 then 0 else v
  | None => 0
  end.

(** [s || d] on an optional string: [undefined] and the empty string
    are falsy. *)
Definition or_string (o : option string) (d : string) : string :=
  match o with
  | Some s => if String.eqb s EmptyString then d else s
  | None => d
  end.

End Js.

(** ** The JPEG 2000 plug-in: planar samples to interleaved pixels *)

Module Jp2.

(** What the OpenJPEG binding returns: the decoder itself is not part
    of [index.js], its result is the input of the conversion. *)
Record decoded := { width : Z; height : Z; data : list Z }.

(** The index expression of line 31:
    [(data.length / 4) * (i % 4) + Math.round(i / 4)]. *)
Definition source_index (len i : nat) : Q :=
  (Z.of_nat len # 4) * inject_Z (Z.of_nat i mod 4)
  + inject_Z (Js.Math_round (Z.of_nat i # 4)).

(** One iteration of the loop: [rgbaBuffer[i] = data[...] || 0]. *)
Definition decode_step (data rgbaBuffer : list Z) (i : nat) : list Z :=
  <[ i := Js.ToUint8
            (Js.or_zero (Js.typed_get data (source_index (length data) i))) ]>
    rgbaBuffer.

(** [Buffer.alloc(data.length)] followed by the loop over
    [0 <= i < data.length]. *)
Definition reorder (data : list Z) : list Z :=
  foldl (decode_step data) (replicate (length data) 0) (seq 0 (length data)).

Definition decode (d : decoded) : decoded :=
  {| width := width d; height := height d; data := reorder (data d) |}.

(** The planar reading of the flat buffer: four planes of equal
    length stored back to back; [plane data p !! o] is the sample of
    plane [p] at offset [o], absent outside the plane. *)
Definition plane (data : list Z) (p : nat) : list Z :=
  let n := (length data / 4)%nat in take n (drop (p * n) data).

(** The rounded offset [Math.round(i / 4)] as a list position. *)
Definition rounded_offset (i : nat) : nat :=
  Z.to_nat (Js.Math_round (Z.of_nat i # 4)).

(** Samples that are bytes, as a buffer of 8-bit samples holds them. *)
Definition byte_samples (data : list Z) : Prop :=
  Forall (fun v => 0 <= v < 256) data.

End Jp2.

(** ** The [.icns] container: choosing one bitmap *)

Module Icns.

(** The comparator of line 164, [(a, b) => b.length - a.length]. *)
Definition by_length_desc (a b : list Z) : Z :=
  Z.of_nat (length b) - Z.of_nat (length a).

(** [Array.prototype.sort] is a stable sort: an element is placed
    before the first element it must not follow, so that elements
    the comparator does not separate keep their order. *)
Fixpoint insert_sorted {A} (cmp : A -> A -> Z) (x : A) (s : list A) : list A :=
  match s with
  | [] => [x]
  | y :: s' => if cmp x y <=? 0 then x :: s else y :: insert_sorted cmp x s'
  end.

Definition sort {A} (cmp : A -> A -> Z) (l : list A) : list A :=
  foldr (insert_sorted cmp) [] l.

Section Select.

(** [icns.isImageType] of icns-lib: which type tags are bitmaps. *)
Variable isImageType : string -> bool.

(** The payloads of the image-tagged entries, in the order of
    [Object.entries]. *)
Definition image_payloads (entries : list (string * list Z)) : list (list Z) :=
  map snd (List.filter (fun e => isImageType (fst e)) entries).

(** Lines 161-164: filter, map, sort, first element; [None] is the
    [undefined] of an empty array. *)
Definition subIconBuffer (entries : list (string * list Z)) : option (list Z) :=
  head (sort by_length_desc (image_payloads entries)).

(** The entry a largest-payload selection with a stable tie-break
    picks: [v] is the payload of an image-tagged entry, every
    image-tagged entry before it is strictly shorter and none after
    it is longer. *)
Definition first_longest (entries : list (string * list Z)) (v : list Z) : Prop :=
  exists es1 k es2,
    entries = es1 ++ (k, v) :: es2
    /\ isImageType k = true
    /\ Forall (fun e => isImageType (fst e) = true
                        -> (length (snd e) < length v)%nat) es1
    /\ Forall (fun e => isImageType (fst e) = true
                        -> (length (snd e) <= length v)%nat) es2.

(** [icns.parse] of icns-lib: the entries of the object it returns,
    or [None] when it throws. *)
Variable parse : list Z -> option (list (string * list Z)).

(** Lines 158-169: the buffer handed to the image reader.  A buffer
    object is always truthy, so any selection replaces the file
    bytes; a parse error is swallowed by the empty [catch]. *)
Definition iconBuffer (file : list Z) : list Z :=
  match parse file with
  | Some entries =>
      match subIconBuffer entries with
      | Some sub => sub
      | None => file
      end
  | None => file
  end.

End Select.

End Icns.

(** ** The raster canvas *)

Module Canvas.

(** A raster image: row-major packed RGBA pixels, one entry per pixel. *)
Record image := { width : nat; height : nat; pixels : list Z }.

Definition uint32 (p : Z) : Prop := 0 <= p < 2 ^ 32.

(** An image of the given dimensions with one pixel per coordinate. *)
Definition shaped (w h : nat) (im : image) : Prop :=
  width im = w /\ height im = h /\ length (pixels im) = (w * h)%nat.

Definition in_bounds (im : image) (x y : nat) : bool :=
  (x <? width im)%nat && (y <? height im)%nat.

Definition pixel_index (im : image) (x y : nat) : nat := (width im * y + x)%nat.

(** Modelled from the spec: the canvas library (Jimp) is a dependency
    whose code is not in the repository; section 4.4 gives
    [getPixel(x, y)] as a bounds-checked read of the packed pixel,
    failing with [OutOfBounds] ([None]) outside the image. *)
Definition getPixelColor (im : image) (x y : nat) : option Z :=
  if in_bounds im x y then pixels im !! pixel_index im x y else None.

(** Modelled from the spec: section 4.4, [setPixel(x, y, packedColor)],
    a bounds-checked write of one packed pixel. *)
Definition setPixelColor (im : image) (hex : Z) (x y : nat) : option image :=
  if in_bounds im x y
  then Some {| width := width im; height := height im;
               pixels := <[ pixel_index im x y := hex ]> (pixels im) |}
  else None.

(** The coordinates a scan of the rectangle visits, row by row. *)
Definition scan_coords (x0 y0 w h : nat) : list (nat * nat) :=
  flat_map (fun y => map (fun x => (x, y)) (seq x0 w)) (seq y0 h).

Fixpoint scan_list {S} (f : nat -> nat -> S -> option S)
         (cs : list (nat * nat)) (s : S) : option S :=
  match cs with
  | [] => Some s
  | (x, y) :: cs' =>
      match f x y s with
      | Some s' => scan_list f cs' s'
      | None => None
      end
  end.

(** Modelled from the spec: [scan(x, y, w, h, f)] of the canvas
    library calls [f] at every coordinate of the rectangle, threading
    the mutated image; a failing pixel access aborts the scan. *)
Definition scan {S} (x0 y0 w h : nat) (f : nat -> nat -> S -> option S)
           (s : S) : option S :=
  scan_list f (scan_coords x0 y0 w h) s.

(** Modelled from the spec: section 4.4, [composite(base, overlay,
    offsetX, offsetY)]: every overlay pixel overwrites the base pixel
    under it, and an overlay pixel that falls outside the base is
    dropped. *)
Definition paste_pixel (overlay : image) (ox oy : Z) (u v : nat)
           (base : image) : option image :=
  match getPixelColor overlay u v with
  | Some c =>
      let tx := ox + Z.of_nat u in
      let ty := oy + Z.of_nat v in
      if (0 <=? tx) && (tx <? Z.of_nat (width base))
         && (0 <=? ty) && (ty <? Z.of_nat (height base))
      then setPixelColor base c (Z.to_nat tx) (Z.to_nat ty)
      else Some base
  | None => None
  end.

Definition composite (base overlay : image) (ox oy : Z) : option image :=
  scan 0 0 (width overlay) (height overlay) (paste_pixel overlay ox oy) base.

(** The alpha channel is the low byte of a packed RGBA pixel. *)
Definition alpha (p : Z) : Z := Z.land p 255.

(** Modelled from the spec: section 4.5 step 1, the alpha check: some
    pixel whose alpha channel is not fully opaque. *)
Definition hasAlpha (im : image) : bool :=
  existsb (fun p => negb (alpha p =? 255)) (pixels im).

End Canvas.

(** ** The adaptive compositor of the [set] command *)

Module Compositor.

Import Canvas.

Definition imageSize : Z := 1024.
Definition iconPadding : Z := 100.
Definition iconSize : Z := imageSize - 2 * iconPadding.

(** The resize requested from the canvas library: [contain] is
    shrink-to-fit, [cover] is fill-and-crop. *)
Inductive CompositionPolicy :=
| ShrinkToFit (targetW targetH : Q)
| FillAndCrop (targetW targetH : Q).

Section Scale.

(** [parseFloat] on the text of the [--scale] option.  The sizes
    requested from the resize are exact rationals here. *)
Variable parseFloat : string -> Q.

(** Lines 180-188: the scale and the resize that goes with it. *)
Definition originalIconScaleSize (has_alpha : bool) (scale : option string) : Q :=
  if has_alpha then parseFloat (Js.or_string scale "0.9") else 1.

Definition policy (has_alpha : bool) (scale : option string) : CompositionPolicy :=
  if has_alpha
  then ShrinkToFit (inject_Z iconSize * originalIconScaleSize true scale)
                   (inject_Z iconSize * originalIconScaleSize true scale)
  else FillAndCrop (inject_Z iconSize) (inject_Z iconSize).

End Scale.

(** The arithmetic of lines 122-124, 182-189 in binary64, as the
    program runs it: every operation rounds to the nearest double. *)
Definition iconSize_binary64 : float := (1024 - 2 * 100)%float.

(** The double nearest to 0.9, the value of [parseFloat('0.9')]. *)
Definition default_scale_binary64 : float := 0x1.ccccccccccccdp-1%float.

Section ScaleBinary64.

(** [parseFloat] as the double it returns. *)
Variable parseFloat : string -> float.

(** Lines 182 and 186. *)
Definition originalIconScaleSize_binary64 (has_alpha : bool) (scale : option string)
  : float :=
  if has_alpha then parseFloat (Js.or_string scale "0.9") else 1%float.

End ScaleBinary64.

(** Line 183: the side [iconSize * originalIconScaleSize] asked of
    [contain]. *)
Definition scaledSize (originalIconScaleSize : float) : float :=
  (iconSize_binary64 * originalIconScaleSize)%float.

(** Line 189: [iconSize * (1 - originalIconScaleSize) / 2]. *)
Definition scalePosition (originalIconScaleSize : float) : float :=
  (iconSize_binary64 * (1 - originalIconScaleSize) / 2)%float.

(** The offset in the words of the specification, for comparison:
    [(iconArea - scaledSize) / 2]. *)
Definition symmetric_padding (scaled : float) : float :=
  ((iconSize_binary64 - scaled) / 2)%float.

(** The double nearest to [k / 1000]: what [parseFloat] returns on a
    scale written with three decimals. *)
Definition thousandths (k : nat) : float :=
  (PrimFloat.of_uint63 (Uint63.of_Z (Z.of_nat k)) / 1000)%float.

(** Lines 197-199: the callback of the masking scan. *)
Definition mask_pixel (mask : image) (x y : nat) (im : image) : option image :=
  match getPixelColor mask x y, getPixelColor im x y with
  | Some m, Some c => setPixelColor im (Js.ushr0 (Js.bitand m c)) x y
  | _, _ => None
  end.

(** The masking scan over the [size] x [size] canvas ([imageSize] in
    the source). *)
Definition apply_mask (size : nat) (mask im : image) : option image :=
  scan 0 0 size size (mask_pixel mask) im.

(** Lines 171-178: reading the chosen buffer; a reader failure prints
    the error and ends the process with status 1. *)
Inductive outcome (A : Type) :=
| Continue (a : A)
| Exit (status : Z).
Arguments Continue {A} a.
Arguments Exit {A} status.

Section Read.

Variable isImageType : string -> bool.
Variable parse : list Z -> option (list (string * list Z)).

(** [Jimp.read]: the decoded image, or [None] when it throws. *)
Variable read : list Z -> option image.

Definition originalIcon (file : list Z) : outcome image :=
  match read (Icns.iconBuffer isImageType parse file) with
  | Some im => Continue im
  | None => Exit 1
  end.

End Read.

End Compositor.

(** ** The regular expressions of the source *)

Module Regex.

(** Strings are sequences of UTF-16 code units.  [.] matches every
    code unit but the four line terminators. *)
Definition line_terminator (c : Z) : bool :=
  (c =? 10) || (c =? 13) || (c =? 8232) || (c =? 8233).

Inductive re :=
| Void
| Eps
| Chr (c : Z)
| Dot
| Seq (a b : re)
| Alt (a b : re)
| Opt (a : re)
| Star (a : re).

(** The words an expression matches from its first to its last unit. *)
Inductive lang : re -> list Z -> Prop :=
| lang_eps : lang Eps []
| lang_chr c : lang (Chr c) [c]
| lang_dot c : line_terminator c = false -> lang Dot [c]
| lang_seq a b u v : lang a u -> lang b v -> lang (Seq a b) (u ++ v)
| lang_alt_l a b u : lang a u -> lang (Alt a b) u
| lang_alt_r a b u : lang b u -> lang (Alt a b) u
| lang_opt_none a : lang (Opt a) []
| lang_opt_some a u : lang a u -> lang (Opt a) u
| lang_star_nil a : lang (Star a) []
| lang_star_app a u v : lang a u -> lang (Star a) v -> lang (Star a) (u ++ v).

Fixpoint nullable (r : re) : bool :=
  match r with
  | Void | Chr _ | Dot => false
  | Eps | Opt _ | Star _ => true
  | Seq a b => nullable a && nullable b
  | Alt a b => nullable a || nullable b
  end.

(** What is left to match after the code unit [c]. *)
Fixpoint deriv (c : Z) (r : re) : re :=
  match r with
  | Void | Eps => Void
  | Chr d => if c =? d then Eps else Void
  | Dot => if line_terminator c then Void else Eps
  | Seq a b =>
      if nullable a then Alt (Seq (deriv c a) b) (deriv c b) else Seq (deriv c a) b
  | Alt a b => Alt (deriv c a) (deriv c b)
  | Opt a => deriv c a
  | Star a => Seq (deriv c a) (Star a)
  end.

Fixpoint matches (r : re) (w : list Z) : bool :=
  match w with
  | [] => nullable r
  | c :: w' => matches (deriv c r) w'
  end.

(** A search for the pattern [r$] (no flags): [$] holds at the end of
    the input only, so there is a match starting at position [p]
    exactly when the input from [p] on is a word of [r]; the engine
    tries the start positions from the left and keeps the first. *)
Fixpoint search_end (r : re) (s : list Z) : option nat :=
  if matches r s then Some 0%nat
  else match s with
       | [] => None
       | _ :: s' => S <$> search_end r s'
       end.

(** [/r$/.test(s)]. *)
Definition test_end (r : re) (s : list Z) : bool :=
  match search_end r s with
  | Some _ => true
  | None => false
  end.

(** [s.replace(/r$/, repl)] for a replacement text without [$]: the
    match runs to the end of [s], so what precedes it is kept and
    [repl] follows; without a match [s] is returned. *)
Definition replace_end (r : re) (s repl : list Z) : list Z :=
  match search_end r s with
  | Some p => take p s ++ repl
  | None => s
  end.

(** An ASCII literal as code units, and the expression matching it. *)
Definition lit (s : string) : list Z :=
  map (fun a => Z.of_N (Ascii.N_of_ascii a)) (list_ascii_of_string s).

Fixpoint word (w : list Z) : re :=
  match w with
  | [] => Eps
  | c :: w' => Seq (Chr c) (word w')
  end.

End Regex.

(** ** File names: [.icns], [.app] and [.png] *)

Module Paths.

Import Regex.

(** Lines 105-107: [if (!/\.icns$/.test(f)) f += '.icns']. *)
Definition with_icns (srcIconFile : list Z) : list Z :=
  if test_end (word (lit ".icns")) srcIconFile
  then srcIconFile
  else srcIconFile ++ lit ".icns".

(** Lines 101 and 115: [name.replace(/\.app$/, '')]. *)
Definition strip_app (name : list Z) : list Z :=
  replace_end (word (lit ".app")) name [].

(** Line 202: [String(output).replace(re, '.png')], where [re] is an
    optional group, a dot followed by any number of [.], and then [$]. *)
Definition png_path (output : list Z) : list Z :=
  replace_end (Opt (Seq (Chr 46) (Star Dot))) output (lit ".png").

End Paths.

(** ** The command line: targets, names and the [unset] loop *)

Module Cli.

Import Compositor.

(** A string or [undefined] is truthy when it is a non-empty string. *)
Definition truthy (o : option (list Z)) : bool :=
  match o with
  | Some (_ :: _) => true
  | _ => false
  end.

(** [o || d]. *)
Definition or_else (o : option (list Z)) (d : list Z) : list Z :=
  match o with
  | Some (c :: s) => c :: s
  | _ => d
  end.

(** [~dir.indexOf('*')]: truthy when [dir] holds a star. *)
Definition has_star (dir : list Z) : bool := existsb (fun c => c =? 42) dir.

Section Targets.

(** [glob.sync] of the glob dependency. *)
Variable glob_sync : list Z -> list (list Z).

(** Lines 68-72 and 221-226: the directories the loop visits.  The
    destructuring [[dir, ...otherDirs] = glob.sync(dir)] leaves [dir]
    undefined ([None]) when nothing matches. *)
Definition targets (dir : list Z) (otherDirs : list (list Z)) : list (option (list Z)) :=
  if (length otherDirs =? 0)%nat && has_star dir
  then match glob_sync dir with
       | [] => [None]
       | d :: ds => Some d :: map Some ds
       end
  else Some dir :: map Some otherDirs.

End Targets.

Section Unset.

(** The targets of the loop, and the exit status of [fileicon rm] on a
    target as [spawnSync] reports it: [None] is the [null] of a child
    ended by a signal. *)
Variable target : Type.
Variable rm_status : target -> option Z.

(** [if (status)]: neither [null] nor 0. *)
Definition failed (status : option Z) : bool :=
  match status with
  | Some z => negb (z =? 0)
  | None => false
  end.

(** Lines 226-232: the targets on which [fileicon rm] was run, and how
    the loop ended. *)
Fixpoint unset_loop (ts : list target) : list target * outcome unit :=
  match ts with
  | [] => ([], Continue tt)
  | t :: ts' =>
      if failed (rm_status t) then ([t], Exit 1)
      else let (ran, o) := unset_loop ts' in (t :: ran, o)
  end.

End Unset.

(** The two keys read from [Info.plist]. *)
Record info := { CFBundleDisplayName : option (list Z); CFBundleIconFile : option (list Z) }.

Section Names.

(** [path.basename], the [path.resolve] of line 104 ([None] when it
    throws) and the [path.resolve] of line 118. *)
Variable basename : list Z -> list Z.
Variable resolve_icon : list Z -> option (list Z) -> option (list Z).
Variable resolve_default : list Z -> list Z.

(** Lines 114-119, the [catch] block. *)
Definition catch_names (appName srcIconFile : option (list Z)) (appDir : list Z)
  : option (list Z) * option (list Z) :=
  (if truthy appName then appName else Some (Paths.strip_app (basename appDir)),
   if truthy srcIconFile then srcIconFile else Some (resolve_default appDir)).

(** Lines 86-120: the app name and the icon file.  [plist] is [None]
    when converting, reading or parsing [Info.plist] throws; a throw
    of line 104 reaches the [catch] block after line 101 has run. *)
Definition names (keyword input : option (list Z)) (plist : option info)
           (appDir : list Z) : option (list Z) * option (list Z) :=
  match plist with
  | None => catch_names keyword input appDir
  | Some contents =>
      let appName :=
        if truthy keyword then keyword
        else Some (or_else (CFBundleDisplayName contents)
                           (Paths.strip_app (basename appDir))) in
      if truthy input then (appName, input)
      else match resolve_icon appDir (CFBundleIconFile contents) with
           | Some f => (appName, Some (Paths.with_icns f))
           | None => catch_names appName input appDir
           end
  end.

End Names.

End Cli.

(** * Properties *)

(** ** The reordering loop *)

Section ReorderLoop.

Import Jp2.

Lemma Math_round_quarter (i : Z) : Js.Math_round (i # 4) = (i + 2) / 4.
Proof.
  unfold Js.Math_round, Qplus, Qfloor; cbn [Qnum Qden].
  change (Z.pos (4 * 2)) with (4 * 2).
  replace (i * 2 + 1 * 4) with ((i + 2) * 2) by lia.
  rewrite Z.div_mul_cancel_r; lia.
Qed.

Lemma rounded_offset_eq (i : nat) : rounded_offset i = ((i + 2) / 4)%nat.
Proof.
  unfold rounded_offset. rewrite Math_round_quarter.
  replace (Z.of_nat i + 2) with (Z.of_nat (i + 2)) by lia.
  change 4 with (Z.of_nat 4). rewrite <- Nat2Z.inj_div. apply Nat2Z.id.
Qed.

(** On a buffer of four equal planes of [n] samples the index
    expression is the integer [n * (i % 4) + round(i / 4)]. *)
Lemma typed_get_planar (data : list Z) (n i : nat) :
  length data = (4 * n)%nat ->
  Js.typed_get data (source_index (length data) i)
  = data !! (n * (i mod 4) + rounded_offset i)%nat.
Proof.
  intros Hlen. unfold Js.typed_get, source_index. rewrite Hlen.
  set (p := Z.of_nat i mod 4). set (r := Js.Math_round (Z.of_nat i # 4)).
  assert (Hp : 0 <= p < 4) by (apply Z.mod_pos_bound; lia).
  assert (Hr : 0 <= r).
  { subst r. rewrite Math_round_quarter. apply Z.div_pos; lia. }
  assert (Hfl : Qfloor ((Z.of_nat (4 * n) # 4) * inject_Z p + inject_Z r)
                = Z.of_nat n * p + r).
  { unfold Qfloor, Qplus, Qmult, inject_Z; cbn [Qnum Qden].
    change (Z.pos (4 * 1 * 1)) with 4. change (Z.pos (4 * 1)) with 4.
    replace (Z.of_nat (4 * n) * p * 1 + r * 4) with ((Z.of_nat n * p + r) * 4) by lia.
    apply Z.div_mul; lia. }
  rewrite Hfl.
  assert (Heq : Qeq_bool ((Z.of_nat (4 * n) # 4) * inject_Z p + inject_Z r)
                         (inject_Z (Z.of_nat n * p + r)) = true).
  { apply Qeq_bool_iff. unfold Qeq, Qplus, Qmult, inject_Z; cbn [Qnum Qden].
    change (Z.pos (4 * 1 * 1)) with 4. change (Z.pos (4 * 1)) with 4. lia. }
  rewrite Heq.
  replace (0 <=? Z.of_nat n * p + r) with true by (symmetry; apply Z.leb_le; nia).
  simpl. f_equal. unfold rounded_offset. fold r. subst p.
  change 4 with (Z.of_nat 4). rewrite <- Nat2Z.inj_mod.
  rewrite <- Nat2Z.inj_mul, Z2Nat.inj_add, Nat2Z.id by lia. reflexivity.
Qed.

Lemma foldl_store_length (g : nat -> Z) (ks : list nat) (buf : list Z) :
  length (foldl (fun b k => <[ k := g k ]> b) buf ks) = length buf.
Proof.
  revert buf. induction ks as [|k ks IH]; intros buf; simpl; [reflexivity|].
  rewrite IH. apply length_insert.
Qed.

Lemma foldl_store_lookup (g : nat -> Z) (n : nat) (buf : list Z) (i : nat) :
  (n <= length buf)%nat ->
  foldl (fun b k => <[ k := g k ]> b) buf (seq 0 n) !! i
  = if (i <? n)%nat then Some (g i) else buf !! i.
Proof.
  induction n as [|n IH]; intros Hn.
  - reflexivity.
  - rewrite seq_S, foldl_app. simpl.
    pose proof (foldl_store_length g (seq 0 n) buf) as Hlen.
    destruct (decide (i = n)) as [->|Hne].
    + rewrite list_lookup_insert_eq by lia.
      replace (n <? S n)%nat with true by (symmetry; apply Nat.ltb_lt; lia).
      reflexivity.
    + rewrite list_lookup_insert_ne by congruence.
      rewrite IH by lia.
      destruct (i <? n)%nat eqn:E1, (i <? S n)%nat eqn:E2; try reflexivity;
        apply Nat.ltb_lt in E1 || apply Nat.ltb_ge in E1;
        apply Nat.ltb_lt in E2 || apply Nat.ltb_ge in E2; lia.
Qed.

(** Every position of the output holds what line 31 stores there. *)
Lemma reorder_lookup (data : list Z) (i : nat) :
  (i < length data)%nat ->
  reorder data !! i
  = Some (Js.ToUint8 (Js.or_zero (Js.typed_get data (source_index (length data) i)))).
Proof.
  intros Hi. unfold reorder, decode_step.
  rewrite (foldl_store_lookup
             (fun k => Js.ToUint8 (Js.or_zero (Js.typed_get data (source_index (length data) k)))))
    by (rewrite length_replicate; lia).
  replace (i <? length data)%nat with true by (symmetry; apply Nat.ltb_lt; lia).
  reflexivity.
Qed.

Lemma reorder_length (data : list Z) : length (reorder data) = length data.
Proof.
  unfold reorder, decode_step.
  rewrite (foldl_store_length
             (fun k => Js.ToUint8 (Js.or_zero (Js.typed_get data (source_index (length data) k))))).
  apply length_replicate.
Qed.

(** X1. The plug-in returns the decoder's width and height and a
    buffer of exactly as many bytes as the decoder's sample buffer. *)
Theorem decode_keeps_dimensions (d : decoded) :
  width (decode d) = width d /\ height (decode d) = height d
  /\ length (data (decode d)) = length (data d).
Proof.
  unfold decode. simpl. repeat split.
  unfold reorder, decode_step.
  rewrite (foldl_store_length
             (fun k => Js.ToUint8
                         (Js.or_zero (Js.typed_get (data d) (source_index (length (data d)) k))))).
  apply length_replicate.
Qed.

End ReorderLoop.

Section PlanarMapping.

Import Jp2.

Lemma byte_store_id (o : option Z) :
  (forall v, o = Some v -> 0 <= v < 256) ->
  Js.ToUint8 (Js.or_zero o) = default 0 o.
Proof.
  intros Hb. destruct o as [v|]; simpl; [|reflexivity].
  specialize (Hb v eq_refl). unfold Js.ToUint8.
  destruct (Z.eqb_spec v 0) as [->|_]; [reflexivity|].
  apply Z.mod_small; lia.
Qed.

(** The flat read behind every output byte of a four-plane buffer. *)
Lemma reorder_planar (data : list Z) (n i : nat) :
  length data = (4 * n)%nat -> byte_samples data -> (i < 4 * n)%nat ->
  reorder data !! i
  = Some (default 0 (data !! (n * (i mod 4) + rounded_offset i)%nat)).
Proof.
  intros Hlen Hb Hi. rewrite reorder_lookup by lia.
  rewrite (typed_get_planar data n i Hlen). f_equal.
  apply byte_store_id. intros v Hv.
  unfold byte_samples in Hb. rewrite Forall_lookup in Hb. exact (Hb _ _ Hv).
Qed.

Lemma plane_lookup (data : list Z) (n p o : nat) :
  length data = (4 * n)%nat -> (o < n)%nat ->
  plane data p !! o = data !! (n * p + o)%nat.
Proof.
  intros Hlen Ho. unfold plane. rewrite Hlen.
  replace (4 * n / 4)%nat with n by (symmetry; rewrite Nat.mul_comm; apply Nat.div_mul; lia).
  rewrite lookup_take_lt by lia. rewrite lookup_drop. f_equal. lia.
Qed.

Lemma rounded_offset_cases (i : nat) :
  rounded_offset i = if (i mod 4 <? 2)%nat then (i / 4)%nat else (i / 4 + 1)%nat.
Proof.
  rewrite rounded_offset_eq.
  pose proof (Nat.div_mod_eq i 4) as Hdm.
  pose proof (Nat.mod_upper_bound i 4 ltac:(lia)) as Hm.
  destruct (Nat.ltb_spec (i mod 4) 2) as [Hlt|Hge].
  - symmetry. apply (Nat.div_unique (i + 2) 4 (i / 4) (i mod 4 + 2)); lia.
  - symmetry. apply (Nat.div_unique (i + 2) 4 (i / 4 + 1) (i mod 4 - 2)); lia.
Qed.

Lemma rounded_offset_inside (n i : nat) :
  (rounded_offset i < n)%nat <-> (i + 2 < 4 * n)%nat.
Proof.
  rewrite rounded_offset_eq.
  pose proof (Nat.div_mod_eq (i + 2) 4) as Hdm.
  pose proof (Nat.mod_upper_bound (i + 2) 4 ltac:(lia)) as Hm.
  lia.
Qed.

(** C1, as stated, fails at the last pixel: on the one-pixel buffer
    [0; 0; 0; 7] the output byte at index 2 is 7, while plane 2 has no
    sample at the rounded offset 1 (and 0 is not what is written
    either): the byte comes from plane 3. *)
Lemma reorder_not_plane_at_rounded_offset :
  byte_samples [0; 0; 0; 7]
  /\ length [0; 0; 0; 7]%Z = (4 * 1)%nat
  /\ (2 < 4 * 1)%nat
  /\ reorder [0; 0; 0; 7] !! 2%nat = Some 7
  /\ plane [0; 0; 0; 7] (2 mod 4) !! rounded_offset 2 = None
  /\ reorder [0; 0; 0; 7] !! 2%nat <> plane [0; 0; 0; 7] (2 mod 4) !! rounded_offset 2
  /\ reorder [0; 0; 0; 7] !! 2%nat
     <> Some (default 0 (plane [0; 0; 0; 7] (2 mod 4) !! rounded_offset 2)).
Proof.
  split; [unfold byte_samples; repeat constructor; lia|].
  split; [reflexivity|]. split; [lia|].
  split; [vm_compute; reflexivity|]. split; [vm_compute; reflexivity|].
  split; vm_compute; discriminate.
Qed.

(** C1, amended. On a buffer of four equal planes of [n] samples, for
    every output index [i] below [4n - 2] the rounded offset
    [Math.round(i / 4)] lies inside the plane and the output byte at
    [i] is the sample of plane [i % 4] at that offset, stored as a
    byte: the sample itself when the samples are bytes.  The offset is
    [floor(i / 4)] only for [i % 4 < 2] and is [floor(i / 4) + 1] for
    the other two channels, so the floor mapping is not the one the
    loop uses.  The two last indices are the only ones left out: their
    rounded offset is [n], outside the plane. *)
Theorem reorder_reads_plane_at_rounded_offset (data : list Z) (n i : nat) :
  length data = (4 * n)%nat -> (i + 2 < 4 * n)%nat ->
  (rounded_offset i < n)%nat
  /\ is_Some (plane data (i mod 4) !! rounded_offset i)
  /\ reorder data !! i = Js.ToUint8 <$> plane data (i mod 4) !! rounded_offset i
  /\ (byte_samples data ->
      reorder data !! i = plane data (i mod 4) !! rounded_offset i)
  /\ rounded_offset i = (if (i mod 4 <? 2)%nat then i / 4 else i / 4 + 1)%nat
  /\ (forall j, (j < 4 * n)%nat -> ~ (j + 2 < 4 * n)%nat -> rounded_offset j = n).
Proof.
  intros Hlen Hi.
  assert (Ho : (rounded_offset i < n)%nat) by (apply rounded_offset_inside; exact Hi).
  rewrite (plane_lookup data n (i mod 4) (rounded_offset i) Hlen Ho).
  assert (Hs : is_Some (data !! (n * (i mod 4) + rounded_offset i)%nat)).
  { apply lookup_lt_is_Some. rewrite Hlen.
    pose proof (Nat.mod_upper_bound i 4 ltac:(lia)). nia. }
  split; [exact Ho|]. split; [exact Hs|]. split; [|split; [|split]].
  - rewrite reorder_lookup by lia. rewrite (typed_get_planar data n i Hlen).
    destruct Hs as [v Hv]. rewrite Hv. simpl.
    destruct (Z.eqb_spec v 0) as [->|_]; reflexivity.
  - intros Hb. rewrite (reorder_planar data n i Hlen Hb) by lia.
    destruct Hs as [v Hv]. rewrite Hv. reflexivity.
  - apply rounded_offset_cases.
  - intros j Hj Hnot. rewrite rounded_offset_eq.
    symmetry. apply (Nat.div_unique (j + 2) 4 n (j + 2 - 4 * n)); lia.
Qed.

Lemma reorder_reads_plane_at_rounded_offset_witness :
  length [10; 11; 20; 21; 30; 31; 40; 41]%Z = (4 * 2)%nat
  /\ (2 + 2 < 4 * 2)%nat
  /\ reorder [10; 11; 20; 21; 30; 31; 40; 41] !! 2%nat
     = Js.ToUint8 <$> plane [10; 11; 20; 21; 30; 31; 40; 41] (2 mod 4) !! rounded_offset 2
  /\ rounded_offset 2 = (if (2 mod 4 <? 2)%nat then 2 / 4 else 2 / 4 + 1)%nat.
Proof.
  assert (Hlen : length [10; 11; 20; 21; 30; 31; 40; 41]%Z = (4 * 2)%nat) by reflexivity.
  assert (Hi : (2 + 2 < 4 * 2)%nat) by lia.
  split; [exact Hlen|]. split; [exact Hi|].
  destruct (reorder_reads_plane_at_rounded_offset
              [10; 11; 20; 21; 30; 31; 40; 41] 2 2 Hlen Hi)
    as (_ & _ & Hrd & _ & Hoff & _).
  split; [exact Hrd | exact Hoff].
Defined.

(** C2, as stated, fails: on the one-pixel buffer [0; 0; 0; 7] the
    rounded offset of output index 2 is 1, outside plane 2, and the
    byte written is 7, the sample of plane 3. *)
Lemma reorder_beyond_plane_not_zero :
  byte_samples [0; 0; 0; 7]
  /\ (2 < length [0; 0; 0; 7]%Z)%nat
  /\ (length (plane [0; 0; 0; 7]%Z (2 mod 4)) <= rounded_offset 2)%nat
  /\ reorder [0; 0; 0; 7] !! 2%nat <> Some 0.
Proof.
  split; [unfold byte_samples; repeat constructor; lia|].
  split; [simpl; lia|].
  split; [vm_compute; lia|].
  vm_compute. discriminate.
Qed.

(** C2, amended. When the rounded offset leaves the plane, the flat
    index decides: for the last plane ([i = 4n - 1]) it is past the
    end of the buffer and the byte written is 0; for plane 2
    ([i = 4n - 2]) it is [3n] and the byte written is the first
    sample of plane 3.  No other index has its offset outside its
    plane. *)
Theorem reorder_beyond_plane (data : list Z) (n i : nat) :
  length data = (4 * n)%nat -> byte_samples data ->
  (i < 4 * n)%nat -> (n <= rounded_offset i)%nat ->
  (i = (4 * n - 1)%nat /\ (i mod 4 = 3)%nat /\ reorder data !! i = Some 0)
  \/ (i = (4 * n - 2)%nat /\ (i mod 4 = 2)%nat
      /\ is_Some (plane data 3 !! 0%nat)
      /\ reorder data !! i = plane data 3 !! 0%nat).
Proof.
  intros Hlen Hb Hi Ho.
  rewrite (reorder_planar data n i Hlen Hb Hi).
  pose proof (rounded_offset_cases i) as Hc.
  pose proof (Nat.div_mod_eq i 4) as Hdm.
  pose proof (Nat.mod_upper_bound i 4 ltac:(lia)) as Hm.
  destruct (Nat.ltb_spec (i mod 4) 2) as [Hlt|Hge]; [lia|].
  assert (Hq : (i / 4 = n - 1)%nat) by lia.
  destruct (decide (i mod 4 = 3)%nat) as [H3|H3].
  - left. split; [lia|]. split; [assumption|].
    rewrite lookup_ge_None_2; [reflexivity|]. rewrite Hlen, H3. lia.
  - right. assert (H2 : (i mod 4 = 2)%nat) by lia.
    split; [lia|]. split; [assumption|].
    rewrite (plane_lookup data n 3 0 Hlen) by lia.
    assert (Hs : is_Some (data !! (n * 3 + 0)%nat))
      by (apply lookup_lt_is_Some; lia).
    split; [exact Hs|].
    replace (n * (i mod 4) + rounded_offset i)%nat with (n * 3 + 0)%nat by (rewrite H2; lia).
    destruct Hs as [v Hv]. rewrite Hv. reflexivity.
Qed.

Lemma reorder_beyond_plane_witness :
  (6%nat = (4 * 2 - 1)%nat /\ (6 mod 4 = 3)%nat
   /\ reorder [10; 11; 20; 21; 30; 31; 40; 41] !! 6%nat = Some 0)
  \/ (6%nat = (4 * 2 - 2)%nat /\ (6 mod 4 = 2)%nat
      /\ is_Some (plane [10; 11; 20; 21; 30; 31; 40; 41] 3 !! 0%nat)
      /\ reorder [10; 11; 20; 21; 30; 31; 40; 41] !! 6%nat
         = plane [10; 11; 20; 21; 30; 31; 40; 41] 3 !! 0%nat).
Proof.
  apply (reorder_beyond_plane [10; 11; 20; 21; 30; 31; 40; 41] 2 6).
  - reflexivity.
  - unfold byte_samples. repeat constructor; lia.
  - lia.
  - vm_compute. lia.
Defined.

End PlanarMapping.

Example reorder_fixture :
  Jp2.reorder [10; 11; 20; 21; 30; 31; 40; 41] = [10; 20; 31; 41; 11; 21; 40; 0].
Proof. vm_compute. reflexivity. Qed.

Example reorder_ragged :
  Jp2.reorder [1; 2; 3; 4; 5; 6] = [1; 0; 5; 0; 2; 0].
Proof. vm_compute. reflexivity. Qed.

(** ** The sort of the selection is a stable descending sort *)

Section SortModel.

Import Icns.

Lemma insert_sorted_Permutation {A} (cmp : A -> A -> Z) (x : A) (s : list A) :
  Permutation (insert_sorted cmp x s) (x :: s).
Proof.
  induction s as [|y s IH]; simpl; [reflexivity|].
  destruct (cmp x y <=? 0); [reflexivity|].
  rewrite IH. apply perm_swap.
Qed.

Lemma sort_Permutation {A} (cmp : A -> A -> Z) (l : list A) :
  Permutation (sort cmp l) l.
Proof.
  induction l as [|x l IH]; simpl; [reflexivity|].
  rewrite insert_sorted_Permutation. apply perm_skip. exact IH.
Qed.

(** No element of the result is followed by a longer one. *)
Lemma sort_by_length_sorted (l : list (list Z)) :
  StronglySorted (fun a b => (length b <= length a)%nat) (sort by_length_desc l).
Proof.
  induction l as [|x l IH]; simpl; [constructor|].
  induction IH as [|y s Hs IHs Hy]; simpl; [repeat constructor|].
  unfold by_length_desc at 1.
  destruct (Z.leb_spec (Z.of_nat (length y) - Z.of_nat (length x)) 0) as [Hle|Hgt].
  - constructor; [constructor; assumption|].
    constructor; [lia|]. eapply Forall_impl; [exact Hy|]. simpl. intros z Hz. lia.
  - constructor; [exact IHs|].
    eapply Permutation_Forall; [symmetry; apply insert_sorted_Permutation|].
    constructor; [lia | exact Hy].
Qed.

(** Payloads of one length keep the order they had (stability). *)
Lemma sort_by_length_stable (n : nat) (l : list (list Z)) :
  List.filter (fun a => (length a =? n)%nat) (sort by_length_desc l)
  = List.filter (fun a => (length a =? n)%nat) l.
Proof.
  induction l as [|x l IH]; simpl; [reflexivity|].
  rewrite <- IH. clear IH. generalize (sort by_length_desc l) as s. intros s.
  induction s as [|y s IHs]; simpl; [reflexivity|].
  unfold by_length_desc at 1.
  destruct (Z.leb_spec (Z.of_nat (length y) - Z.of_nat (length x)) 0) as [Hle|Hgt].
  - reflexivity.
  - simpl. rewrite IHs. simpl.
    destruct (Nat.eqb_spec (length x) n), (Nat.eqb_spec (length y) n);
      try reflexivity; lia.
Qed.

End SortModel.

(** ** Choosing the bitmap of a container *)

Section Selection.

Import Icns.

Variable isImageType : string -> bool.

Lemma head_insert_sorted {A} (cmp : A -> A -> Z) (x : A) (s : list A) :
  head (insert_sorted cmp x s)
  = match head s with
    | Some y => if cmp x y <=? 0 then Some x else Some y
    | None => Some x
    end.
Proof. destruct s as [|y s]; simpl; [reflexivity|]. destruct (cmp x y <=? 0); reflexivity. Qed.

Lemma subIconBuffer_cons (k : string) (v : list Z) (es : list (string * list Z)) :
  subIconBuffer isImageType ((k, v) :: es)
  = if isImageType k
    then match subIconBuffer isImageType es with
         | Some y => if (length y <=? length v)%nat then Some v else Some y
         | None => Some v
         end
    else subIconBuffer isImageType es.
Proof.
  unfold subIconBuffer, image_payloads. simpl.
  destruct (isImageType k); [|reflexivity].
  simpl. rewrite head_insert_sorted.
  destruct (head _) as [y|]; [|reflexivity].
  unfold by_length_desc.
  destruct (Nat.leb_spec (length y) (length v)) as [Hle|Hgt].
  - replace (Z.of_nat (length y) - Z.of_nat (length v) <=? 0) with true
      by (symmetry; apply Z.leb_le; lia).
    reflexivity.
  - replace (Z.of_nat (length y) - Z.of_nat (length v) <=? 0) with false
      by (symmetry; apply Z.leb_gt; lia).
    reflexivity.
Qed.

Lemma subIconBuffer_spec (entries : list (string * list Z)) :
  match subIconBuffer isImageType entries with
  | Some v => first_longest isImageType entries v
  | None => Forall (fun e => isImageType (fst e) = false) entries
  end.
Proof.
  induction entries as [|[k v] es IH].
  - constructor.
  - rewrite subIconBuffer_cons.
    destruct (isImageType k) eqn:Hk.
    + destruct (subIconBuffer isImageType es) as [y|].
      * destruct IH as (es1 & ky & es2 & -> & Hky & H1 & H2).
        destruct (Nat.leb_spec (length y) (length v)) as [Hle|Hgt].
        -- exists [], k, (es1 ++ (ky, y) :: es2). repeat split; try assumption.
           ++ constructor.
           ++ apply Forall_app. split.
              ** eapply Forall_impl; [exact H1|]. simpl. intros e He Hi.
                 specialize (He Hi). lia.
              ** constructor; [simpl; intros _; lia|].
                 eapply Forall_impl; [exact H2|]. simpl. intros e He Hi.
                 specialize (He Hi). lia.
        -- exists ((k, v) :: es1), ky, es2. repeat split; try assumption.
           constructor; [simpl; intros _; lia | exact H1].
      * exists [], k, es. repeat split; try assumption.
        -- constructor.
        -- eapply Forall_impl; [exact IH|]. simpl. intros e He Hi. congruence.
    + destruct (subIconBuffer isImageType es) as [y|].
      * destruct IH as (es1 & ky & es2 & -> & Hky & H1 & H2).
        exists ((k, v) :: es1), ky, es2. repeat split; try assumption.
        constructor; [simpl; congruence | exact H1].
      * constructor; assumption.
Qed.

(** C3. When the container holds an image-tagged entry, a payload is
    selected; it is the payload of an image-tagged entry, no image
    payload is longer, and every image entry before it is strictly
    shorter (the first of the longest wins).  Two image entries of
    100 and 500 bytes give the 500-byte payload in either order. *)
Theorem subIconBuffer_first_longest (entries : list (string * list Z)) :
  Exists (fun e => isImageType (fst e) = true) entries ->
  (exists v, subIconBuffer isImageType entries = Some v /\ first_longest isImageType entries v)
  /\ (forall ka kb a b,
         isImageType ka = true -> isImageType kb = true ->
         length a = 100%nat -> length b = 500%nat ->
         subIconBuffer isImageType [(ka, a); (kb, b)] = Some b
         /\ subIconBuffer isImageType [(kb, b); (ka, a)] = Some b).
Proof.
  intros Hex. split.
  - pose proof (subIconBuffer_spec entries) as Hs.
    destruct (subIconBuffer isImageType entries) as [v|].
    + exists v. split; [reflexivity | exact Hs].
    + exfalso. apply Exists_exists in Hex as (e & Hin & He).
      rewrite Forall_forall in Hs. specialize (Hs e Hin). congruence.
  - intros ka kb a b Hka Hkb Ha Hb.
    rewrite !subIconBuffer_cons, Hka, Hkb.
    unfold subIconBuffer, image_payloads. simpl. rewrite Ha, Hb.
    split; reflexivity.
Qed.

End Selection.

Lemma subIconBuffer_first_longest_witness :
  let isImageType := fun k => String.eqb k "ic09" || String.eqb k "ic10" in
  let entries := [("TOC "%string, [1; 2; 3]); ("ic09"%string, [4; 5]);
                  ("ic10"%string, [6; 7])] in
  Exists (fun e => isImageType (fst e) = true) entries
  /\ exists v, Icns.subIconBuffer isImageType entries = Some v
               /\ Icns.first_longest isImageType entries v.
Proof.
  intros isImageType entries.
  assert (Hex : Exists (fun e => isImageType (fst e) = true) entries).
  { apply Exists_cons_tl, Exists_cons_hd. reflexivity. }
  split; [exact Hex|].
  exact (proj1 (subIconBuffer_first_longest isImageType entries Hex)).
Defined.

Example subIconBuffer_tie :
  Icns.subIconBuffer (fun k => String.eqb k "ic09" || String.eqb k "ic10")
    [("TOC "%string, [1; 2; 3]); ("ic09"%string, [4; 5]); ("ic10"%string, [6; 7])]
  = Some [4; 5].
Proof. reflexivity. Qed.

(** ** Reading and writing pixels *)

Section PixelAccess.

Import Canvas.

Lemma in_bounds_shaped (w h : nat) (im : image) (x y : nat) :
  shaped w h im -> in_bounds im x y = true <-> (x < w)%nat /\ (y < h)%nat.
Proof.
  intros (Hw & Hh & _). unfold in_bounds. rewrite Hw, Hh.
  rewrite andb_true_iff, !Nat.ltb_lt. reflexivity.
Qed.

Lemma pixel_index_lt (w h : nat) (im : image) (x y : nat) :
  shaped w h im -> (x < w)%nat -> (y < h)%nat ->
  (pixel_index im x y < length (pixels im))%nat.
Proof.
  intros (Hw & Hh & Hl) Hx Hy. unfold pixel_index. rewrite Hw, Hl. nia.
Qed.

Lemma pixel_index_inj (w h : nat) (im : image) (x y x' y' : nat) :
  shaped w h im -> (x < w)%nat -> (x' < w)%nat ->
  pixel_index im x y = pixel_index im x' y' -> x = x' /\ y = y'.
Proof.
  intros (Hw & _ & _) Hx Hx'. unfold pixel_index. rewrite Hw. intros Heq.
  assert (y = y') by nia. subst y'. split; [lia | reflexivity].
Qed.

Lemma getPixelColor_is_Some (w h : nat) (im : image) (x y : nat) :
  shaped w h im -> (x < w)%nat -> (y < h)%nat -> is_Some (getPixelColor im x y).
Proof.
  intros Hs Hx Hy. unfold getPixelColor.
  rewrite (proj2 (in_bounds_shaped w h im x y Hs)) by auto.
  apply lookup_lt_is_Some. eapply pixel_index_lt; eauto.
Qed.

Lemma getPixelColor_outside (w h : nat) (im : image) (x y : nat) :
  shaped w h im -> ~ ((x < w)%nat /\ (y < h)%nat) -> getPixelColor im x y = None.
Proof.
  intros Hs Hn. unfold getPixelColor.
  destruct (in_bounds im x y) eqn:E; [|reflexivity].
  apply (in_bounds_shaped w h im x y Hs) in E. contradiction.
Qed.

(** A write inside the image succeeds, keeps the shape, is read back
    at its coordinate and leaves every other coordinate alone. *)
Lemma setPixelColor_spec (w h : nat) (im : image) (v : Z) (x y : nat) :
  shaped w h im -> (x < w)%nat -> (y < h)%nat ->
  exists im',
    setPixelColor im v x y = Some im'
    /\ shaped w h im'
    /\ getPixelColor im' x y = Some v
    /\ forall x' y', (x', y') <> (x, y) ->
                     getPixelColor im' x' y' = getPixelColor im x' y'.
Proof.
  intros Hs Hx Hy. unfold setPixelColor.
  rewrite (proj2 (in_bounds_shaped w h im x y Hs)) by auto.
  eexists. split; [reflexivity|].
  pose proof Hs as (Hw & Hh & Hl).
  assert (Hs' : shaped w h {| width := width im; height := height im;
                              pixels := <[pixel_index im x y:=v]> (pixels im) |}).
  { repeat split; simpl; try assumption. rewrite length_insert. exact Hl. }
  split; [exact Hs'|]. split.
  - unfold getPixelColor.
    rewrite (proj2 (in_bounds_shaped w h _ x y Hs')) by auto. simpl.
    apply list_lookup_insert_eq. eapply pixel_index_lt; eauto.
  - intros x' y' Hne. unfold getPixelColor.
    destruct (in_bounds im x' y') eqn:E.
    + pose proof (proj1 (in_bounds_shaped w h im x' y' Hs) E) as [Hx' Hy'].
      rewrite (proj2 (in_bounds_shaped w h _ x' y' Hs')) by auto. simpl.
      apply list_lookup_insert_ne. intros Heq.
      change (pixel_index im x y = pixel_index im x' y') in Heq.
      apply (pixel_index_inj w h im x y x' y' Hs Hx Hx') in Heq as [-> ->].
      contradiction.
    + unfold in_bounds in *. simpl. rewrite E. reflexivity.
Qed.

(** Images of one shape that agree at every coordinate are equal. *)
Lemma image_ext (w h : nat) (a b : image) :
  shaped w h a -> shaped w h b ->
  (forall x y, (x < w)%nat -> (y < h)%nat -> getPixelColor a x y = getPixelColor b x y) ->
  a = b.
Proof.
  intros Ha Hb Heq.
  pose proof Ha as (Hwa & Hha & Hla). pose proof Hb as (Hwb & Hhb & Hlb).
  destruct a as [wa ha pa], b as [wb hb pb]; simpl in *. subst wa ha wb hb.
  f_equal. apply list_eq. intros i.
  destruct (Nat.lt_ge_cases i (w * h)) as [Hi|Hi].
  - assert (Hw0 : (0 < w)%nat) by (destruct w; [simpl in Hi; lia | lia]).
    pose proof (Nat.div_mod_eq i w) as Hdm.
    pose proof (Nat.mod_upper_bound i w ltac:(lia)) as Hm.
    assert (Hd : (i / w < h)%nat) by (apply Nat.Div0.div_lt_upper_bound; lia).
    specialize (Heq (i mod w)%nat (i / w)%nat Hm Hd).
    unfold getPixelColor, in_bounds, pixel_index in Heq. simpl in Heq.
    replace (i mod w <? w)%nat with true in Heq by (symmetry; apply Nat.ltb_lt; lia).
    replace (i / w <? h)%nat with true in Heq by (symmetry; apply Nat.ltb_lt; lia).
    simpl in Heq. rewrite <- Hdm in Heq. exact Heq.
  - rewrite !lookup_ge_None_2 by lia. reflexivity.
Qed.

Lemma scan_coords_In (x0 y0 w h x y : nat) :
  In (x, y) (scan_coords x0 y0 w h)
  <-> (x0 <= x < x0 + w)%nat /\ (y0 <= y < y0 + h)%nat.
Proof.
  unfold scan_coords. rewrite in_flat_map. split.
  - intros (y' & Hy' & Hin). apply in_map_iff in Hin as (x' & Heq & Hx').
    inversion Heq; subst. apply in_seq in Hy'. apply in_seq in Hx'. lia.
  - intros [Hx Hy]. exists y. split; [apply in_seq; lia|].
    apply in_map_iff. exists x. split; [reflexivity | apply in_seq; lia].
Qed.

Lemma scan_coords_NoDup (x0 y0 w h : nat) : NoDup (scan_coords x0 y0 w h).
Proof.
  unfold scan_coords. revert y0. induction h as [|h IH]; intros y0; simpl.
  - constructor.
  - apply NoDup_app. split; [|split].
    + apply NoDup_fmap_2; [|apply NoDup_seq].
      intros a b Hab. congruence.
    + intros [x y] Hin Hin'.
      apply list_elem_of_In in Hin. apply list_elem_of_In in Hin'.
      apply in_map_iff in Hin as (x' & Heq & _). injection Heq as _ Hy.
      apply (proj1 (scan_coords_In x0 (S y0) w h x y)) in Hin'. lia.
    + apply IH.
Qed.

End PixelAccess.

(** ** Scans whose callback writes one pixel *)

Section ScanFrame.

Import Canvas.

Variables w h : nat.
Variable f : nat -> nat -> image -> option image.

(** Where the callback is specified, the pixel it writes and the
    value it writes there from the value it finds. *)
Variable dom : nat -> nat -> Prop.
Variable tgt : nat -> nat -> option (nat * nat).
Variable val : nat -> nat -> Z -> Z.

Hypothesis step_spec :
  forall x y s, dom x y -> shaped w h s ->
    exists s',
      f x y s = Some s' /\ shaped w h s'
      /\ match tgt x y with
         | Some (tx, ty) =>
             getPixelColor s' tx ty = val x y <$> getPixelColor s tx ty
             /\ forall x' y', (x', y') <> (tx, ty) ->
                              getPixelColor s' x' y' = getPixelColor s x' y'
         | None => s' = s
         end.

Hypothesis tgt_inj :
  forall x y x' y' t, dom x y -> dom x' y' ->
    tgt x y = Some t -> tgt x' y' = Some t -> (x, y) = (x', y').

Lemma scan_list_frame (cs : list (nat * nat)) :
  NoDup cs -> (forall x y, In (x, y) cs -> dom x y) ->
  forall s, shaped w h s ->
    exists out,
      scan_list f cs s = Some out /\ shaped w h out
      /\ (forall x y tx ty, In (x, y) cs -> tgt x y = Some (tx, ty) ->
            getPixelColor out tx ty = val x y <$> getPixelColor s tx ty)
      /\ (forall x' y', (forall x y, In (x, y) cs -> tgt x y <> Some (x', y')) ->
            getPixelColor out x' y' = getPixelColor s x' y').
Proof.
  induction cs as [|[x y] cs IH]; intros Hnd Hdom s Hs.
  - exists s. simpl. split; [reflexivity|]. split; [exact Hs|]. split.
    + intros ? ? ? ? [].
    + reflexivity.
  - apply NoDup_cons in Hnd as [Hnotin Hnd].
    rewrite list_elem_of_In in Hnotin.
    assert (Hxy : dom x y) by (apply Hdom; left; reflexivity).
    assert (Hdom' : forall a b, In (a, b) cs -> dom a b)
      by (intros a b Hin; apply Hdom; right; exact Hin).
    destruct (step_spec x y s Hxy Hs) as (s1 & Hf & Hs1 & Hstep).
    destruct (IH Hnd Hdom' s1 Hs1) as (out & Hscan & Hout & Hwr & Hfr).
    exists out. simpl. rewrite Hf. split; [exact Hscan|]. split; [exact Hout|].
    assert (Hkeep : forall x' y', tgt x y <> Some (x', y') ->
              getPixelColor s1 x' y' = getPixelColor s x' y').
    { intros x' y' Hne. destruct (tgt x y) as [[tx ty]|].
      - destruct Hstep as [_ Hoth]. apply Hoth. congruence.
      - subst s1. reflexivity. }
    split.
    + intros a b ta tb [Heq|Hin] Ht.
      * injection Heq as <- <-.
        rewrite Hfr.
        -- rewrite Ht in Hstep. apply Hstep.
        -- intros a b Hin Ht'.
           pose proof (tgt_inj x y a b (ta, tb) Hxy (Hdom' a b Hin) Ht Ht') as Heq.
           injection Heq as <- <-. contradiction.
      * rewrite (Hwr a b ta tb Hin Ht). f_equal. apply Hkeep.
        intros Ht'.
        pose proof (tgt_inj x y a b (ta, tb) Hxy (Hdom' a b Hin) Ht' Ht) as Heq.
        injection Heq as <- <-. contradiction.
    + intros x' y' Hno. rewrite Hfr.
      * apply Hkeep. apply (Hno x y). left. reflexivity.
      * intros a b Hin. apply Hno. right. exact Hin.
Qed.

End ScanFrame.

(** ** The bitwise AND of two packed pixels *)

Section PackedAnd.

Lemma ToInt32_mod (v : Z) : Js.ToInt32 v mod 2 ^ 32 = v mod 2 ^ 32.
Proof.
  unfold Js.ToInt32. cbv zeta.
  destruct (v mod 2 ^ 32 <? 2 ^ 31).
  - apply Z.mod_mod. lia.
  - replace (v mod 2 ^ 32 - 2 ^ 32) with (v mod 2 ^ 32 + (-1) * 2 ^ 32) by lia.
    rewrite Z.mod_add by lia. apply Z.mod_mod. lia.
Qed.

Lemma land_mod_pow2 (a b n : Z) :
  0 <= n -> Z.land a b mod 2 ^ n = Z.land (a mod 2 ^ n) (b mod 2 ^ n).
Proof.
  intros Hn. rewrite <- !Z.land_ones by assumption.
  apply Z.bits_inj'. intros k Hk. rewrite !Z.land_spec.
  destruct (Z.testbit a k), (Z.testbit b k), (Z.testbit (Z.ones n) k); reflexivity.
Qed.

(** [(m & c) >>> 0] is the AND of the low 32 bits of both operands. *)
Lemma ushr0_bitand (m c : Z) :
  Js.ushr0 (Js.bitand m c) = Z.land (m mod 2 ^ 32) (c mod 2 ^ 32).
Proof.
  unfold Js.ushr0, Js.ToUint32, Js.bitand.
  rewrite land_mod_pow2 by lia. rewrite !ToInt32_mod. reflexivity.
Qed.

Lemma ushr0_bitand_uint32 (m c : Z) :
  Canvas.uint32 m -> Canvas.uint32 c -> Js.ushr0 (Js.bitand m c) = Z.land m c.
Proof.
  unfold Canvas.uint32. intros Hm Hc.
  rewrite ushr0_bitand, !Z.mod_small by lia. reflexivity.
Qed.

Lemma ushr0_bitand_range (m c : Z) : 0 <= Js.ushr0 (Js.bitand m c) < 2 ^ 32.
Proof. unfold Js.ushr0, Js.ToUint32. apply Z.mod_pos_bound. lia. Qed.

Lemma ushr0_bitand_below_mask (m c : Z) :
  Z.land (Js.ushr0 (Js.bitand m c)) m = Js.ushr0 (Js.bitand m c).
Proof.
  rewrite ushr0_bitand. rewrite <- !Z.land_ones by lia.
  apply Z.bits_inj'. intros k Hk. rewrite !Z.land_spec.
  destruct (Z.testbit m k), (Z.testbit c k), (Z.testbit (Z.ones 32) k); reflexivity.
Qed.

Lemma ushr0_bitand_idem (m c : Z) :
  Js.ushr0 (Js.bitand m (Js.ushr0 (Js.bitand m c))) = Js.ushr0 (Js.bitand m c).
Proof.
  rewrite (ushr0_bitand m (Js.ushr0 (Js.bitand m c))).
  rewrite (Z.mod_small (Js.ushr0 _)) by apply ushr0_bitand_range.
  rewrite ushr0_bitand. rewrite <- !Z.land_ones by lia.
  apply Z.bits_inj'. intros k Hk. rewrite !Z.land_spec.
  destruct (Z.testbit m k), (Z.testbit c k), (Z.testbit (Z.ones 32) k); reflexivity.
Qed.

End PackedAnd.

(** ** The masking scan *)

Section Masking.

Import Canvas Compositor.

Lemma mask_pixel_spec (size : nat) (mask : image) (x y : nat) (s : image) :
  shaped size size mask -> (x < size)%nat /\ (y < size)%nat -> shaped size size s ->
  exists s',
    mask_pixel mask x y s = Some s' /\ shaped size size s'
    /\ (getPixelColor s' x y
        = (fun c => Js.ushr0 (Js.bitand (default 0 (getPixelColor mask x y)) c))
            <$> getPixelColor s x y)
    /\ forall x' y', (x', y') <> (x, y) ->
                     getPixelColor s' x' y' = getPixelColor s x' y'.
Proof.
  intros Hm [Hx Hy] Hs. unfold mask_pixel.
  destruct (getPixelColor_is_Some size size mask x y Hm Hx Hy) as [m Hgm].
  destruct (getPixelColor_is_Some size size s x y Hs Hx Hy) as [c Hgc].
  rewrite Hgm, Hgc. simpl.
  destruct (setPixelColor_spec size size s (Js.ushr0 (Js.bitand m c)) x y Hs Hx Hy)
    as (s' & Hset & Hs' & Hsame & Hoth).
  exists s'. repeat split; try assumption; apply Hs'.
Qed.

(** The scan succeeds and leaves at every coordinate
    [(mask & image) >>> 0] of the two pixels found there before it. *)
Lemma apply_mask_spec (size : nat) (mask im : image) :
  shaped size size mask -> shaped size size im ->
  exists out,
    apply_mask size mask im = Some out /\ shaped size size out
    /\ forall x y, (x < size)%nat -> (y < size)%nat ->
         exists m c,
           getPixelColor mask x y = Some m /\ getPixelColor im x y = Some c
           /\ getPixelColor out x y = Some (Js.ushr0 (Js.bitand m c)).
Proof.
  intros Hm Hs. unfold apply_mask, scan.
  destruct (scan_list_frame size size (mask_pixel mask)
              (fun x y => (x < size)%nat /\ (y < size)%nat)
              (fun x y => Some (x, y))
              (fun x y c => Js.ushr0 (Js.bitand (default 0 (getPixelColor mask x y)) c)))
    with (cs := scan_coords 0 0 size size) (s := im)
    as (out & Hscan & Hout & Hwr & _).
  - intros x y s Hd Hsh. apply mask_pixel_spec; assumption.
  - intros x y x' y' t _ _ H1 H2. congruence.
  - apply scan_coords_NoDup.
  - intros x y Hin. apply scan_coords_In in Hin. lia.
  - exact Hs.
  - exists out. split; [exact Hscan|]. split; [exact Hout|].
    intros x y Hx Hy.
    destruct (getPixelColor_is_Some size size mask x y Hm Hx Hy) as [m Hgm].
    destruct (getPixelColor_is_Some size size im x y Hs Hx Hy) as [c Hgc].
    exists m, c. split; [exact Hgm|]. split; [exact Hgc|].
    rewrite (Hwr x y x y); [|apply scan_coords_In; lia|reflexivity].
    rewrite Hgm, Hgc. reflexivity.
Qed.

End Masking.

Section MaskingClaims.

Import Canvas Compositor.

Lemma getPixelColor_uint32 (im : image) (x y : nat) (c : Z) :
  Forall uint32 (pixels im) -> getPixelColor im x y = Some c -> uint32 c.
Proof.
  intros Hall. unfold getPixelColor. destruct (in_bounds im x y); [|discriminate].
  intros Hl. rewrite Forall_lookup in Hall. exact (Hall _ _ Hl).
Qed.

(** C4. On a canvas and a mask of the scanned size, both holding
    packed 32-bit pixels, the masking scan returns a canvas whose
    pixel at every coordinate [(x, y)] is the bitwise AND of the mask
    pixel and of the canvas pixel at [(x, y)]. *)
Theorem apply_mask_pointwise_and (size : nat) (mask im : image) :
  shaped size size mask -> Forall uint32 (pixels mask) ->
  shaped size size im -> Forall uint32 (pixels im) ->
  exists out,
    apply_mask size mask im = Some out /\ shaped size size out
    /\ forall x y, (x < size)%nat -> (y < size)%nat ->
         exists m c,
           getPixelColor mask x y = Some m /\ getPixelColor im x y = Some c
           /\ getPixelColor out x y = Some (Z.land m c).
Proof.
  intros Hm Hmr Hs Hsr.
  destruct (apply_mask_spec size mask im Hm Hs) as (out & Hrun & Hout & Hpix).
  exists out. split; [exact Hrun|]. split; [exact Hout|].
  intros x y Hx Hy. destruct (Hpix x y Hx Hy) as (m & c & Hgm & Hgc & Hgo).
  exists m, c. split; [exact Hgm|]. split; [exact Hgc|].
  rewrite Hgo. f_equal. apply ushr0_bitand_uint32.
  - exact (getPixelColor_uint32 mask x y m Hmr Hgm).
  - exact (getPixelColor_uint32 im x y c Hsr Hgc).
Qed.

(** C5. Masking a masked canvas again changes nothing: the second
    scan returns the canvas the first one returned.  This holds for
    every mask of the scanned size, a binary stencil in particular. *)
Theorem apply_mask_idempotent (size : nat) (mask im : image) :
  shaped size size mask -> shaped size size im ->
  exists out,
    apply_mask size mask im = Some out /\ apply_mask size mask out = Some out.
Proof.
  intros Hm Hs.
  destruct (apply_mask_spec size mask im Hm Hs) as (out & Hrun & Hout & Hpix).
  destruct (apply_mask_spec size mask out Hm Hout) as (out2 & Hrun2 & Hout2 & Hpix2).
  exists out. split; [exact Hrun|]. rewrite Hrun2. f_equal.
  apply (image_ext size size); try assumption.
  intros x y Hx Hy.
  destruct (Hpix x y Hx Hy) as (m & c & Hgm & Hgc & Hgo).
  destruct (Hpix2 x y Hx Hy) as (m' & c' & Hgm' & Hgc' & Hgo').
  rewrite Hgm in Hgm'. injection Hgm' as <-.
  rewrite Hgo in Hgc'. injection Hgc' as <-.
  rewrite Hgo, Hgo'. f_equal. apply ushr0_bitand_idem.
Qed.

(** C10. After the masking scan every pixel [p] of the result has no
    bit outside the mask pixel at its coordinate, [p AND m = p], and
    is an unsigned 32-bit value; no assumption is made on the values
    the mask or the canvas hold. *)
Theorem apply_mask_below_mask (size : nat) (mask im : image) :
  shaped size size mask -> shaped size size im ->
  exists out,
    apply_mask size mask im = Some out
    /\ forall x y, (x < size)%nat -> (y < size)%nat ->
         exists m p,
           getPixelColor mask x y = Some m /\ getPixelColor out x y = Some p
           /\ Z.land p m = p /\ 0 <= p < 2 ^ 32.
Proof.
  intros Hm Hs.
  destruct (apply_mask_spec size mask im Hm Hs) as (out & Hrun & Hout & Hpix).
  exists out. split; [exact Hrun|].
  intros x y Hx Hy. destruct (Hpix x y Hx Hy) as (m & c & Hgm & Hgc & Hgo).
  exists m, (Js.ushr0 (Js.bitand m c)).
  split; [exact Hgm|]. split; [exact Hgo|].
  split; [apply ushr0_bitand_below_mask | apply ushr0_bitand_range].
Qed.

End MaskingClaims.

Lemma apply_mask_pointwise_and_witness :
  let mask := {| Canvas.width := 2; Canvas.height := 2;
                 Canvas.pixels := [4294967295; 0; 4294967295; 255] |} in
  let im := {| Canvas.width := 2; Canvas.height := 2;
               Canvas.pixels := [4278255615; 305419896; 16711935; 2882400001] |} in
  exists out,
    Compositor.apply_mask 2 mask im = Some out /\ Canvas.shaped 2 2 out
    /\ forall x y, (x < 2)%nat -> (y < 2)%nat ->
         exists m c,
           Canvas.getPixelColor mask x y = Some m /\ Canvas.getPixelColor im x y = Some c
           /\ Canvas.getPixelColor out x y = Some (Z.land m c).
Proof.
  intros mask im. apply (apply_mask_pointwise_and 2 mask im).
  - repeat split; reflexivity.
  - unfold Canvas.uint32. repeat constructor; lia.
  - repeat split; reflexivity.
  - unfold Canvas.uint32. repeat constructor; lia.
Defined.

Lemma apply_mask_idempotent_witness :
  let mask := {| Canvas.width := 2; Canvas.height := 2;
                 Canvas.pixels := [4294967295; 0; 4294967295; 0] |} in
  let im := {| Canvas.width := 2; Canvas.height := 2;
               Canvas.pixels := [4278255615; 305419896; 16711935; 2882400001] |} in
  exists out,
    Compositor.apply_mask 2 mask im = Some out
    /\ Compositor.apply_mask 2 mask out = Some out.
Proof.
  intros mask im. apply (apply_mask_idempotent 2 mask im).
  - repeat split; reflexivity.
  - repeat split; reflexivity.
Defined.

Lemma apply_mask_below_mask_witness :
  let mask := {| Canvas.width := 2; Canvas.height := 2;
                 Canvas.pixels := [4294967295; 0; 2155905152; 255] |} in
  let im := {| Canvas.width := 2; Canvas.height := 2;
               Canvas.pixels := [4278255615; 305419896; 16711935; 2882400001] |} in
  exists out,
    Compositor.apply_mask 2 mask im = Some out
    /\ forall x y, (x < 2)%nat -> (y < 2)%nat ->
         exists m p,
           Canvas.getPixelColor mask x y = Some m /\ Canvas.getPixelColor out x y = Some p
           /\ Z.land p m = p /\ 0 <= p < 2 ^ 32.
Proof.
  intros mask im. apply (apply_mask_below_mask 2 mask im).
  - repeat split; reflexivity.
  - repeat split; reflexivity.
Defined.

Example apply_mask_fixture :
  Compositor.apply_mask 2
    {| Canvas.width := 2; Canvas.height := 2;
       Canvas.pixels := [4294967295; 0; 2155905152; 255] |}
    {| Canvas.width := 2; Canvas.height := 2;
       Canvas.pixels := [4278255615; 305419896; 16711935; 2882400001] |}
  = Some {| Canvas.width := 2; Canvas.height := 2;
            Canvas.pixels := [4278255615; 0; 8388736; 1] |}.
Proof. vm_compute. reflexivity. Qed.


(** ** Pasting an overlay *)

Section Composite.

Import Canvas.

Variables bw bh ow oh : nat.
Variable overlay : image.
Variables ox oy : Z.

Hypothesis overlay_shaped : shaped ow oh overlay.

Lemma paste_pixel_inside (u v : nat) (s : image) :
  (u < ow)%nat -> (v < oh)%nat -> shaped bw bh s ->
  0 <= ox + Z.of_nat u < Z.of_nat bw -> 0 <= oy + Z.of_nat v < Z.of_nat bh ->
  exists s',
    paste_pixel overlay ox oy u v s = Some s' /\ shaped bw bh s'
    /\ getPixelColor s' (Z.to_nat (ox + Z.of_nat u)) (Z.to_nat (oy + Z.of_nat v))
       = getPixelColor overlay u v
    /\ forall x' y',
         (x', y') <> (Z.to_nat (ox + Z.of_nat u), Z.to_nat (oy + Z.of_nat v)) ->
         getPixelColor s' x' y' = getPixelColor s x' y'.
Proof.
  intros Hu Hv Hs Hx Hy. unfold paste_pixel.
  destruct (getPixelColor_is_Some ow oh overlay u v overlay_shaped Hu Hv) as [c Hc].
  rewrite Hc. cbv zeta. destruct Hs as (Hw & Hh & Hl). rewrite Hw, Hh.
  replace (0 <=? ox + Z.of_nat u) with true by (symmetry; apply Z.leb_le; lia).
  replace (ox + Z.of_nat u <? Z.of_nat bw) with true by (symmetry; apply Z.ltb_lt; lia).
  replace (0 <=? oy + Z.of_nat v) with true by (symmetry; apply Z.leb_le; lia).
  replace (oy + Z.of_nat v <? Z.of_nat bh) with true by (symmetry; apply Z.ltb_lt; lia).
  simpl.
  destruct (setPixelColor_spec bw bh s c (Z.to_nat (ox + Z.of_nat u))
              (Z.to_nat (oy + Z.of_nat v)))
    as (s' & Hset & Hs' & Hsame & Hoth); [repeat split; assumption | lia | lia |].
  exists s'. repeat split; try assumption; apply Hs'.
Qed.

Lemma paste_pixel_outside (u v : nat) (s : image) :
  (u < ow)%nat -> (v < oh)%nat -> shaped bw bh s ->
  ~ (0 <= ox + Z.of_nat u < Z.of_nat bw /\ 0 <= oy + Z.of_nat v < Z.of_nat bh) ->
  paste_pixel overlay ox oy u v s = Some s.
Proof.
  intros Hu Hv (Hw & Hh & Hl) Hout. unfold paste_pixel.
  destruct (getPixelColor_is_Some ow oh overlay u v overlay_shaped Hu Hv) as [c Hc].
  rewrite Hc. cbv zeta. rewrite Hw, Hh.
  destruct (Z.leb_spec 0 (ox + Z.of_nat u)); simpl; [|reflexivity].
  destruct (Z.ltb_spec (ox + Z.of_nat u) (Z.of_nat bw)); simpl; [|reflexivity].
  destruct (Z.leb_spec 0 (oy + Z.of_nat v)); simpl; [|reflexivity].
  destruct (Z.ltb_spec (oy + Z.of_nat v) (Z.of_nat bh)); simpl; [|reflexivity].
  lia.
Qed.

(** C8. Pasting an overlay onto a base returns an image of the base's
    shape in which every overlay pixel that lands inside the base has
    replaced the base pixel under it, unblended, and every base pixel
    not under the overlay is unchanged; the overlay pixels that land
    outside the base are dropped without an error. *)
Theorem composite_overwrites_and_clips (base : image) :
  shaped bw bh base ->
  exists out,
    composite base overlay ox oy = Some out /\ shaped bw bh out
    /\ (forall u v, (u < ow)%nat -> (v < oh)%nat ->
          0 <= ox + Z.of_nat u < Z.of_nat bw -> 0 <= oy + Z.of_nat v < Z.of_nat bh ->
          is_Some (getPixelColor overlay u v)
          /\ getPixelColor out (Z.to_nat (ox + Z.of_nat u)) (Z.to_nat (oy + Z.of_nat v))
             = getPixelColor overlay u v)
    /\ (forall x y,
          ~ (ox <= Z.of_nat x < ox + Z.of_nat ow /\ oy <= Z.of_nat y < oy + Z.of_nat oh) ->
          getPixelColor out x y = getPixelColor base x y).
Proof.
  intros Hb. unfold composite, scan.
  destruct overlay_shaped as (Hwo & Hho & _). rewrite Hwo, Hho.
  set (inside := fun u v : nat =>
         (0 <=? ox + Z.of_nat u) && (ox + Z.of_nat u <? Z.of_nat bw)
         && (0 <=? oy + Z.of_nat v) && (oy + Z.of_nat v <? Z.of_nat bh)).
  assert (Hinside : forall u v, inside u v = true <->
            0 <= ox + Z.of_nat u < Z.of_nat bw /\ 0 <= oy + Z.of_nat v < Z.of_nat bh).
  { intros u v. unfold inside.
    rewrite !andb_true_iff, !Z.leb_le, !Z.ltb_lt. lia. }
  destruct (scan_list_frame bw bh (paste_pixel overlay ox oy)
              (fun u v => (u < ow)%nat /\ (v < oh)%nat)
              (fun u v => if inside u v
                          then Some (Z.to_nat (ox + Z.of_nat u), Z.to_nat (oy + Z.of_nat v))
                          else None)
              (fun u v _ => default 0 (getPixelColor overlay u v)))
    with (cs := scan_coords 0 0 ow oh) (s := base)
    as (out & Hscan & Hout & Hwr & Hfr).
  - intros u v s [Hu Hv] Hs. destruct (inside u v) eqn:E.
    + apply Hinside in E as [Hx Hy].
      destruct (paste_pixel_inside u v s Hu Hv Hs Hx Hy) as (s' & Hp & Hs' & Hsame & Hoth).
      exists s'. split; [exact Hp|]. split; [exact Hs'|]. split; [|exact Hoth].
      rewrite Hsame.
      destruct (getPixelColor_is_Some ow oh overlay u v overlay_shaped Hu Hv) as [c Hc].
      destruct (getPixelColor_is_Some bw bh s (Z.to_nat (ox + Z.of_nat u))
                  (Z.to_nat (oy + Z.of_nat v)) Hs) as [b Hbv]; [lia | lia |].
      rewrite Hc, Hbv. reflexivity.
    + exists s. split; [|split; [exact Hs | reflexivity]].
      apply paste_pixel_outside; try assumption.
      intros Hin. apply Hinside in Hin. congruence.
  - intros u v u' v' t _ _ H1 H2.
    destruct (inside u v) eqn:E1; [|discriminate].
    destruct (inside u' v') eqn:E2; [|discriminate].
    apply Hinside in E1. apply Hinside in E2.
    injection H1 as <-. injection H2 as Hx Hy.
    f_equal; lia.
  - apply scan_coords_NoDup.
  - intros u v Hin. apply scan_coords_In in Hin. lia.
  - exact Hb.
  - exists out. split; [exact Hscan|]. split; [exact Hout|]. split.
    + intros u v Hu Hv Hx Hy.
      destruct (getPixelColor_is_Some ow oh overlay u v overlay_shaped Hu Hv) as [c Hc].
      split; [eauto|].
      rewrite (Hwr u v (Z.to_nat (ox + Z.of_nat u)) (Z.to_nat (oy + Z.of_nat v))).
      * destruct (getPixelColor_is_Some bw bh base (Z.to_nat (ox + Z.of_nat u))
                    (Z.to_nat (oy + Z.of_nat v)) Hb) as [b Hbv]; [lia | lia |].
        rewrite Hc, Hbv. reflexivity.
      * apply scan_coords_In. lia.
      * rewrite (proj2 (Hinside u v)) by lia. reflexivity.
    + intros x y Hnot. apply Hfr. intros u v Hin Ht.
      apply scan_coords_In in Hin.
      destruct (inside u v) eqn:E; [|discriminate].
      apply Hinside in E. injection Ht as <- <-. lia.
Qed.

End Composite.

Lemma composite_overwrites_and_clips_witness :
  let base := {| Canvas.width := 2; Canvas.height := 2;
                 Canvas.pixels := [1; 2; 3; 4] |} in
  let overlay := {| Canvas.width := 2; Canvas.height := 1;
                    Canvas.pixels := [7; 8] |} in
  Canvas.shaped 2 1 overlay /\ Canvas.shaped 2 2 base
  /\ exists out,
       Canvas.composite base overlay 1 1 = Some out /\ Canvas.shaped 2 2 out
       /\ (forall u v, (u < 2)%nat -> (v < 1)%nat ->
             0 <= 1 + Z.of_nat u < Z.of_nat 2 -> 0 <= 1 + Z.of_nat v < Z.of_nat 2 ->
             is_Some (Canvas.getPixelColor overlay u v)
             /\ Canvas.getPixelColor out (Z.to_nat (1 + Z.of_nat u)) (Z.to_nat (1 + Z.of_nat v))
                = Canvas.getPixelColor overlay u v)
       /\ (forall x y,
             ~ (1 <= Z.of_nat x < 1 + Z.of_nat 2 /\ 1 <= Z.of_nat y < 1 + Z.of_nat 1) ->
             Canvas.getPixelColor out x y = Canvas.getPixelColor base x y).
Proof.
  intros base overlay.
  assert (Ho : Canvas.shaped 2 1 overlay) by (repeat split; reflexivity).
  assert (Hb : Canvas.shaped 2 2 base) by (repeat split; reflexivity).
  split; [exact Ho|]. split; [exact Hb|].
  exact (composite_overwrites_and_clips 2 2 2 1 overlay 1 1 Ho base Hb).
Defined.

Example composite_fixture :
  Canvas.composite
    {| Canvas.width := 2; Canvas.height := 2; Canvas.pixels := [1; 2; 3; 4] |}
    {| Canvas.width := 2; Canvas.height := 1; Canvas.pixels := [7; 8] |} 1 1
  = Some {| Canvas.width := 2; Canvas.height := 2; Canvas.pixels := [1; 2; 3; 7] |}.
Proof. vm_compute. reflexivity. Qed.


(** ** The resize policy and the centering offset *)

Section Policy.

Import Canvas Compositor.

Variable parseFloat : string -> Q.

Lemma hasAlpha_true_iff (src : image) :
  hasAlpha src = true <-> Exists (fun p => alpha p <> 255) (pixels src).
Proof.
  unfold hasAlpha. rewrite existsb_exists, Exists_exists. split.
  - intros (p & Hin & Hp). exists p. rewrite list_elem_of_In. split; [exact Hin|].
    apply negb_true_iff, Z.eqb_neq in Hp. exact Hp.
  - intros (p & Hin & Hp). exists p. rewrite list_elem_of_In in Hin. split; [exact Hin|].
    apply negb_true_iff, Z.eqb_neq. exact Hp.
Qed.

Lemma hasAlpha_false_iff (src : image) :
  hasAlpha src = false <-> Forall (fun p => alpha p = 255) (pixels src).
Proof.
  rewrite <- not_true_iff_false, hasAlpha_true_iff.
  rewrite <- Forall_Exists_neg. split; intros Hall.
  - eapply Forall_impl; [exact Hall|]. simpl. intros p Hp.
    destruct (Z.eq_dec (alpha p) 255); [assumption | contradiction].
  - eapply Forall_impl; [exact Hall|]. simpl. intros p Hp Hne. contradiction.
Qed.

(** C6. A source with a pixel whose alpha channel is not 255 is shrunk
    to fit the square of side [iconSize * scale], where [scale] is the
    parsed [--scale] text and is 0.9 when the option is absent; a
    source whose pixels are all fully opaque is filled and cropped to
    the square of side [iconSize] itself. *)
Theorem policy_by_alpha (src : image) (scale : option string) :
  parseFloat "0.9" == 9 # 10 ->
  (Exists (fun p => alpha p <> 255) (pixels src) ->
     exists s,
       policy parseFloat (hasAlpha src) scale
       = ShrinkToFit (inject_Z iconSize * s) (inject_Z iconSize * s)
       /\ (scale = None -> s == 9 # 10)
       /\ (forall txt, scale = Some txt -> txt <> EmptyString -> s = parseFloat txt))
  /\ (Forall (fun p => alpha p = 255) (pixels src) ->
        policy parseFloat (hasAlpha src) scale
        = FillAndCrop (inject_Z iconSize) (inject_Z iconSize)).
Proof.
  intros Hdefault. split.
  - intros Hex. apply hasAlpha_true_iff in Hex. rewrite Hex.
    exists (parseFloat (Js.or_string scale "0.9")).
    split; [reflexivity|]. split.
    + intros ->. exact Hdefault.
    + intros txt -> Hne. simpl.
      destruct (String.eqb_spec txt EmptyString); [contradiction | reflexivity].
  - intros Hall. apply hasAlpha_false_iff in Hall. rewrite Hall. reflexivity.
Qed.

End Policy.

Lemma policy_by_alpha_witness :
  let parseFloat := fun _ : string => 9 # 10 in
  let src := {| Canvas.width := 1; Canvas.height := 2;
                Canvas.pixels := [4294967295; 4294967040] |} in
  parseFloat "0.9"%string == 9 # 10
  /\ Exists (fun p => Canvas.alpha p <> 255) (Canvas.pixels src)
  /\ exists s,
       Compositor.policy parseFloat (Canvas.hasAlpha src) None
       = Compositor.ShrinkToFit (inject_Z Compositor.iconSize * s)
                                (inject_Z Compositor.iconSize * s)
       /\ (@None string = None -> s == 9 # 10)
       /\ (forall txt, None = Some txt -> txt <> EmptyString -> s = parseFloat txt).
Proof.
  intros parseFloat src.
  assert (Hd : parseFloat "0.9"%string == 9 # 10) by reflexivity.
  assert (Hex : Exists (fun p => Canvas.alpha p <> 255) (Canvas.pixels src)).
  { apply Exists_cons_tl, Exists_cons_hd. vm_compute. discriminate. }
  split; [exact Hd|]. split; [exact Hex|].
  exact (proj1 (policy_by_alpha parseFloat src None Hd) Hex).
Defined.

Example default_geometry :
  Compositor.iconSize = 824
  /\ Compositor.iconSize_binary64 = 824%float
  /\ Compositor.policy (fun _ => 9 # 10) true None
     = Compositor.ShrinkToFit (inject_Z 824 * (9 # 10)) (inject_Z 824 * (9 # 10)).
Proof. repeat split; reflexivity. Qed.

(** ** The centering offset in binary64 *)

Section Centering.

Import Compositor.

Variable parseFloat : string -> float.

Lemma thousandths_close :
  forallb (fun k => PrimFloat.leb
                      (PrimFloat.abs (scalePosition (thousandths k)
                                      - symmetric_padding (scaledSize (thousandths k))))
                      0x1p-44)%float
          (seq 0 2001) = true.
Proof. vm_compute. reflexivity. Qed.

(** C7, amended. The offset of line 189 is [iconSize * (1 - scale) / 2]
    in binary64.  It is exactly 0 when fill-and-crop was chosen.  When
    shrink-to-fit was chosen with the default scale (the option absent
    or empty) it is the same double as [(iconSize - scaledSize) / 2].
    For a scale text that parses to the double nearest to [k / 1000],
    [k] from 0 to 2000, it differs from [(iconSize - scaledSize) / 2]
    by at most [2^-44]. *)
Theorem scalePosition_centers_binary64 (scale : option string) (k : nat) :
  parseFloat "0.9" = default_scale_binary64 ->
  (k <= 2000)%nat ->
  scalePosition (originalIconScaleSize_binary64 parseFloat false scale) = 0%float
  /\ (scale = None \/ scale = Some EmptyString ->
      scalePosition (originalIconScaleSize_binary64 parseFloat true scale)
      = symmetric_padding (scaledSize (originalIconScaleSize_binary64 parseFloat true scale)))
  /\ (forall txt, scale = Some txt -> txt <> EmptyString ->
                  parseFloat txt = thousandths k ->
                  PrimFloat.leb
                    (PrimFloat.abs
                       (scalePosition (originalIconScaleSize_binary64 parseFloat true scale)
                        - symmetric_padding
                            (scaledSize (originalIconScaleSize_binary64 parseFloat true scale))))
                    0x1p-44 = true)%float.
Proof.
  intros Hdefault Hk. split; [|split].
  - vm_compute. reflexivity.
  - intros Hs.
    assert (Hscale : originalIconScaleSize_binary64 parseFloat true scale
                     = default_scale_binary64).
    { unfold originalIconScaleSize_binary64. destruct Hs as [-> | ->]; exact Hdefault. }
    rewrite Hscale. vm_compute. reflexivity.
  - intros txt -> Hne Hparse.
    assert (Hscale : originalIconScaleSize_binary64 parseFloat true (Some txt)
                     = thousandths k).
    { unfold originalIconScaleSize_binary64. simpl.
      destruct (String.eqb_spec txt EmptyString); [contradiction | exact Hparse]. }
    rewrite Hscale.
    pose proof thousandths_close as Hall. rewrite forallb_forall in Hall.
    apply (Hall k). apply in_seq. lia.
Qed.

End Centering.

(** C7, as stated, fails in the arithmetic of the program: at the
    scale 0.95 the offset of line 189 and [(iconSize - scaledSize) / 2]
    are different doubles. *)
Lemma scalePosition_not_symmetric_padding :
  Compositor.thousandths 950 = 0x1.e666666666666p-1%float
  /\ PrimFloat.eqb
       (Compositor.scalePosition (Compositor.thousandths 950))
       (Compositor.symmetric_padding (Compositor.scaledSize (Compositor.thousandths 950)))
     = false
  /\ Compositor.scalePosition (Compositor.thousandths 950)
     <> Compositor.symmetric_padding (Compositor.scaledSize (Compositor.thousandths 950)).
Proof.
  split; [vm_compute; reflexivity|]. split; [vm_compute; reflexivity|].
  intros H.
  apply (f_equal (fun x => PrimFloat.eqb x
                   (Compositor.symmetric_padding
                      (Compositor.scaledSize (Compositor.thousandths 950))))) in H.
  vm_compute in H. discriminate.
Qed.

Lemma scalePosition_centers_binary64_witness :
  let parseFloat := fun txt : string =>
                      if String.eqb txt "0.8" then Compositor.thousandths 800
                      else Compositor.default_scale_binary64 in
  parseFloat "0.9"%string = Compositor.default_scale_binary64
  /\ (800 <= 2000)%nat
  /\ Compositor.scalePosition
       (Compositor.originalIconScaleSize_binary64 parseFloat false (Some "0.8"%string))
     = 0%float
  /\ PrimFloat.leb
       (PrimFloat.abs
          (Compositor.scalePosition
             (Compositor.originalIconScaleSize_binary64 parseFloat true (Some "0.8"%string))
           - Compositor.symmetric_padding
               (Compositor.scaledSize
                  (Compositor.originalIconScaleSize_binary64 parseFloat true
                     (Some "0.8"%string)))))
       0x1p-44 = true.
Proof.
  intros parseFloat.
  assert (Hd : parseFloat "0.9"%string = Compositor.default_scale_binary64) by reflexivity.
  assert (Hk : (800 <= 2000)%nat) by lia.
  split; [exact Hd|]. split; [exact Hk|].
  destruct (scalePosition_centers_binary64 parseFloat (Some "0.8"%string) 800 Hd Hk)
    as (H0 & _ & Hclose).
  split; [exact H0|].
  apply (Hclose "0.8"%string eq_refl); [discriminate | reflexivity].
Defined.


(** ** Falling back to the file, and giving up on an unreadable image *)

Section Fallback.

Import Canvas Compositor.

Variable isImageType : string -> bool.
Variable parse : list Z -> option (list (string * list Z)).
Variable read : list Z -> option image.

Lemma subIconBuffer_no_image (entries : list (string * list Z)) :
  Forall (fun e => isImageType (fst e) = false) entries ->
  Icns.subIconBuffer isImageType entries = None.
Proof.
  intros Hall. pose proof (subIconBuffer_spec isImageType entries) as Hs.
  destruct (Icns.subIconBuffer isImageType entries) as [v|]; [|reflexivity].
  destruct Hs as (es1 & k & es2 & -> & Hk & _).
  apply Forall_app in Hall as [_ Hall]. apply Forall_cons in Hall as [Hk' _].
  simpl in Hk'. congruence.
Qed.

(** C9. A container that does not parse, or that parses to entries
    none of which is image-tagged, does not stop the run: the bytes of
    the file are what the image reader is given, and the run goes on
    exactly when the reader accepts them.  Whatever buffer was chosen,
    a reader failure ends the run with exit status 1. *)
Theorem container_fallback_reader_abort (file : list Z) :
  (parse file = None
   \/ (exists entries, parse file = Some entries
                       /\ Forall (fun e => isImageType (fst e) = false) entries) ->
   Icns.iconBuffer isImageType parse file = file
   /\ originalIcon isImageType parse read file
      = match read file with
        | Some im => Continue im
        | None => Exit 1
        end)
  /\ (read (Icns.iconBuffer isImageType parse file) = None ->
      originalIcon isImageType parse read file = Exit 1).
Proof.
  split.
  - intros Hfail.
    assert (Hbuf : Icns.iconBuffer isImageType parse file = file).
    { unfold Icns.iconBuffer. destruct Hfail as [Hp|(entries & Hp & Hno)]; rewrite Hp.
      - reflexivity.
      - rewrite (subIconBuffer_no_image entries Hno). reflexivity. }
    split; [exact Hbuf|]. unfold originalIcon. rewrite Hbuf. reflexivity.
  - intros Hread. unfold originalIcon. rewrite Hread. reflexivity.
Qed.

End Fallback.

Lemma container_fallback_reader_abort_witness :
  let isImageType := fun k => String.eqb k "ic10" in
  let parse := fun file : list Z =>
                 match file with
                 | [] => None
                 | b :: _ => Some [("TOC "%string, [b])]
                 end in
  let read := fun buf : list Z =>
                match buf with
                | [137; 80] => Some {| Canvas.width := 0; Canvas.height := 0;
                                       Canvas.pixels := [] |}
                | _ => None
                end in
  (Icns.iconBuffer isImageType parse [137; 80] = [137; 80]
   /\ Compositor.originalIcon isImageType parse read [137; 80]
      = Compositor.Continue {| Canvas.width := 0; Canvas.height := 0;
                               Canvas.pixels := [] |})
  /\ Compositor.originalIcon isImageType parse read [] = Compositor.Exit 1.
Proof.
  intros isImageType parse read. split.
  - apply (proj1 (container_fallback_reader_abort isImageType parse read [137; 80])).
    right. exists [("TOC "%string, [137])]. split; [reflexivity|].
    repeat constructor.
  - apply (proj2 (container_fallback_reader_abort isImageType parse read [])).
    reflexivity.
Defined.


(** ** The matcher agrees with the language of an expression *)

Section RegexFacts.

Import Regex.

Lemma lang_seq_inv (a b : re) (w : list Z) :
  lang (Seq a b) w -> exists u v, w = u ++ v /\ lang a u /\ lang b v.
Proof. intros H. inversion H; subst. eauto. Qed.

Lemma lang_alt_inv (a b : re) (w : list Z) : lang (Alt a b) w -> lang a w \/ lang b w.
Proof. intros H. inversion H; subst; auto. Qed.

Lemma lang_opt_inv (a : re) (w : list Z) : lang (Opt a) w -> w = [] \/ lang a w.
Proof. intros H. inversion H; subst; auto. Qed.

Lemma lang_chr_inv (c : Z) (w : list Z) : lang (Chr c) w -> w = [c].
Proof. intros H. inversion H; subst. reflexivity. Qed.

Lemma lang_dot_inv (w : list Z) :
  lang Dot w -> exists c, w = [c] /\ line_terminator c = false.
Proof. intros H. inversion H; subst. eauto. Qed.

Lemma lang_eps_inv (w : list Z) : lang Eps w -> w = [].
Proof. intros H. inversion H; subst. reflexivity. Qed.

Lemma lang_void_inv (w : list Z) : ~ lang Void w.
Proof. intros H. inversion H. Qed.

Lemma nullable_lang (r : re) : nullable r = true <-> lang r [].
Proof.
  induction r as [| | c | | a IHa b IHb | a IHa b IHb | a IHa | a IHa]; simpl.
  - split; [discriminate | intros H; destruct (lang_void_inv _ H)].
  - split; [intros _; constructor | reflexivity].
  - split; [discriminate | intros H; apply lang_chr_inv in H; discriminate].
  - split; [discriminate | intros H; apply lang_dot_inv in H as (c & H & _); discriminate].
  - rewrite andb_true_iff, IHa, IHb. split.
    + intros [Ha Hb]. exact (lang_seq a b [] [] Ha Hb).
    + intros H. apply lang_seq_inv in H as (u & v & Heq & Hu & Hv).
      symmetry in Heq. apply app_eq_nil in Heq as [-> ->]. split; assumption.
  - rewrite orb_true_iff, IHa, IHb. split.
    + intros [Ha|Hb]; [apply lang_alt_l | apply lang_alt_r]; assumption.
    + apply lang_alt_inv.
  - split; [intros _; constructor | reflexivity].
  - split; [intros _; constructor | reflexivity].
Qed.

Lemma lang_star_cons (a : re) (c : Z) (w : list Z) :
  lang (Star a) (c :: w) ->
  exists u v, w = u ++ v /\ lang a (c :: u) /\ lang (Star a) v.
Proof.
  intros H. remember (Star a) as r eqn:Hr. remember (c :: w) as cw eqn:Hcw.
  revert w Hcw.
  induction H as [| | | | | | | | |a' u v Hu _ Hv IHv]; try discriminate.
  injection Hr as ->. intros w Hcw.
  destruct u as [|c' u].
  - simpl in Hcw. apply IHv; [reflexivity | exact Hcw].
  - simpl in Hcw. injection Hcw as -> <-. exists u, v. auto.
Qed.

Lemma deriv_lang (c : Z) (r : re) (w : list Z) :
  lang (deriv c r) w <-> lang r (c :: w).
Proof.
  revert w.
  induction r as [| | d | | a IHa b IHb | a IHa b IHb | a IHa | a IHa]; intros w; simpl.
  - split; intros H; destruct (lang_void_inv _ H).
  - split; intros H; [destruct (lang_void_inv _ H) | apply lang_eps_inv in H; discriminate].
  - destruct (Z.eqb_spec c d) as [->|Hne].
    + split; intros H.
      * apply lang_eps_inv in H. subst. constructor.
      * apply lang_chr_inv in H. injection H as ->. constructor.
    + split; intros H; [destruct (lang_void_inv _ H)|].
      apply lang_chr_inv in H. injection H as -> _. contradiction.
  - destruct (line_terminator c) eqn:E.
    + split; intros H; [destruct (lang_void_inv _ H)|].
      apply lang_dot_inv in H as (c' & Heq & Hc'). injection Heq as -> _. congruence.
    + split; intros H.
      * apply lang_eps_inv in H. subst. constructor. exact E.
      * apply lang_dot_inv in H as (c' & Heq & Hc'). injection Heq as _ ->. constructor.
  - assert (Hseq : lang (Seq (deriv c a) b) w -> lang (Seq a b) (c :: w)).
    { intros H. apply lang_seq_inv in H as (u & v & -> & Hu & Hv).
      apply IHa in Hu. exact (lang_seq a b (c :: u) v Hu Hv). }
    assert (Hinv : lang (Seq a b) (c :: w) ->
                   (lang a [] /\ lang b (c :: w))
                   \/ exists u v, w = u ++ v /\ lang a (c :: u) /\ lang b v).
    { intros H. apply lang_seq_inv in H as (u & v & Heq & Hu & Hv).
      destruct u as [|c' u]; simpl in Heq.
      - left. subst v. split; assumption.
      - injection Heq as -> ->. right. exists u, v. auto. }
    destruct (nullable a) eqn:En.
    + split.
      * intros H. apply lang_alt_inv in H as [H|H]; [auto|].
        apply nullable_lang in En. apply (lang_seq a b [] (c :: w) En). apply IHb. assumption.
      * intros H. apply Hinv in H as [[_ Hb]|(u & v & -> & Ha & Hb)].
        -- apply lang_alt_r. apply IHb. exact Hb.
        -- apply lang_alt_l. apply lang_seq; [apply IHa; exact Ha | exact Hb].
    + split; [exact Hseq|].
      intros H. apply Hinv in H as [[Ha _]|(u & v & -> & Ha & Hb)].
      * apply nullable_lang in Ha. congruence.
      * apply lang_seq; [apply IHa; exact Ha | exact Hb].
  - split; intros H; apply lang_alt_inv in H as [H|H].
    + apply lang_alt_l. apply IHa. assumption.
    + apply lang_alt_r. apply IHb. assumption.
    + apply lang_alt_l. apply IHa. assumption.
    + apply lang_alt_r. apply IHb. assumption.
  - split.
    + intros H. apply lang_opt_some. apply IHa. exact H.
    + intros H. apply lang_opt_inv in H as [H|H]; [discriminate|]. apply IHa. assumption.
  - split.
    + intros H. apply lang_seq_inv in H as (u & v & -> & Hu & Hv).
      apply IHa in Hu. exact (lang_star_app a (c :: u) v Hu Hv).
    + intros H. apply lang_star_cons in H as (u & v & -> & Ha & Hs).
      apply lang_seq; [apply IHa; exact Ha | exact Hs].
Qed.

Lemma matches_lang (r : re) (w : list Z) : matches r w = true <-> lang r w.
Proof.
  revert r. induction w as [|c w IH]; intros r; simpl.
  - apply nullable_lang.
  - rewrite IH. apply deriv_lang.
Qed.

Lemma lang_word (w u : list Z) : lang (word w) u <-> u = w.
Proof.
  revert u. induction w as [|c w IH]; intros u; simpl.
  - split; [apply lang_eps_inv | intros ->; constructor].
  - split.
    + intros H. apply lang_seq_inv in H as (x & y & -> & Hx & Hy).
      apply lang_chr_inv in Hx. apply IH in Hy. subst. reflexivity.
    + intros ->. apply (lang_seq (Chr c) (word w) [c] w); [constructor | apply IH; reflexivity].
Qed.

Lemma lang_star_dot (t : list Z) :
  lang (Star Dot) t <-> Forall (fun c => line_terminator c = false) t.
Proof.
  split.
  - intros H. remember (Star Dot) as r eqn:Hr.
    induction H as [| | | | | | | | |a u v Hu _ Hv IHv]; try discriminate.
    + constructor.
    + injection Hr as ->. apply lang_dot_inv in Hu as (c & -> & Hc).
      constructor; [assumption | auto].
  - induction 1 as [|c t Hc _ IH]; [constructor|].
    exact (lang_star_app Dot [c] t (lang_dot c Hc) IH).
Qed.

(** The words of the expression of line 202 before its [$]: nothing,
    or a dot followed by units none of which ends a line. *)
Lemma lang_extension (w : list Z) :
  lang (Opt (Seq (Chr 46) (Star Dot))) w
  <-> w = [] \/ exists t, w = 46 :: t /\ Forall (fun c => line_terminator c = false) t.
Proof.
  split.
  - intros H. apply lang_opt_inv in H as [->|H]; [left; reflexivity|].
    right. apply lang_seq_inv in H as (x & y & -> & Hx & Hy).
    apply lang_chr_inv in Hx. subst x.
    exists y. split; [reflexivity | apply lang_star_dot; exact Hy].
  - intros [->|(t & -> & Ht)]; [constructor|].
    apply lang_opt_some.
    apply (lang_seq (Chr 46) (Star Dot) [46] t); [constructor | apply lang_star_dot; exact Ht].
Qed.

Lemma search_end_Some (r : re) (s : list Z) (p : nat) :
  search_end r s = Some p
  <-> (p <= length s)%nat /\ matches r (drop p s) = true
      /\ forall q, (q < p)%nat -> matches r (drop q s) = false.
Proof.
  revert p. induction s as [|c s IH]; intros p.
  - simpl. destruct (nullable r) eqn:E.
    + split.
      * intros [= <-]. split; [lia|]. split; [exact E | intros q Hq; lia].
      * intros (Hp & _ & _). simpl in Hp. f_equal. lia.
    + split; [discriminate|].
      intros (_ & Hm & _). rewrite drop_nil in Hm. simpl in Hm. congruence.
  - cbn [search_end]. destruct (matches r (c :: s)) eqn:E.
    + split.
      * intros [= <-]. split; [lia|]. split; [exact E | intros q Hq; lia].
      * intros (_ & _ & Hmin). destruct p as [|p]; [reflexivity|].
        specialize (Hmin 0%nat ltac:(lia)). rewrite drop_0 in Hmin. congruence.
    + destruct p as [|p].
      * split.
        -- destruct (search_end r s); discriminate.
        -- intros (_ & Hm & _). rewrite drop_0 in Hm. congruence.
      * specialize (IH p). split.
        -- intros H. destruct (search_end r s) as [p'|] eqn:Es; [|discriminate].
           injection H as ->. destruct (proj1 IH eq_refl) as (Hp & Hm & Hmin).
           split; [simpl; lia|]. split; [exact Hm|].
           intros [|q] Hq; [rewrite drop_0; exact E | apply Hmin; lia].
        -- intros (Hp & Hm & Hmin). simpl in Hp, Hm.
           rewrite (proj2 IH); [reflexivity|].
           split; [lia|]. split; [exact Hm|].
           intros q Hq. apply (Hmin (S q)). lia.
Qed.

End RegexFacts.


(** ** Suffix tests and replacements on file names *)

Section FileNames.

Import Regex Paths.

Lemma search_end_None (r : re) (s : list Z) :
  search_end r s = None -> forall q, (q <= length s)%nat -> matches r (drop q s) = false.
Proof.
  induction s as [|c s IH]; cbn [search_end].
  - destruct (matches r []) eqn:E; [discriminate|].
    intros _ q Hq. rewrite drop_nil. exact E.
  - destruct (matches r (c :: s)) eqn:E; [discriminate|].
    destruct (search_end r s) eqn:Es; [discriminate|].
    intros _ [|q] Hq; [rewrite drop_0; exact E|].
    simpl in Hq. apply IH; [reflexivity | lia].
Qed.

Lemma search_end_word_suffix (w b : list Z) :
  search_end (word w) (b ++ w) = Some (length b).
Proof.
  apply search_end_Some. split; [rewrite length_app; lia|]. split.
  - rewrite drop_app_length. apply matches_lang, lang_word. reflexivity.
  - intros q Hq. destruct (matches (word w) (drop q (b ++ w))) eqn:E; [|reflexivity].
    apply matches_lang, lang_word in E.
    apply (f_equal length) in E. rewrite length_drop, length_app in E. lia.
Qed.

Lemma search_end_word_Some (w s : list Z) (p : nat) :
  search_end (word w) s = Some p -> s = take p s ++ w.
Proof.
  intros H. apply search_end_Some in H as (_ & Hm & _).
  apply matches_lang, lang_word in Hm.
  rewrite <- Hm. symmetry. apply take_drop.
Qed.

Lemma test_end_word (w s : list Z) :
  test_end (word w) s = true <-> exists pre, s = pre ++ w.
Proof.
  unfold test_end. split.
  - destruct (search_end (word w) s) as [p|] eqn:E; [|discriminate].
    intros _. exists (take p s). apply search_end_word_Some. exact E.
  - intros (pre & ->). rewrite search_end_word_suffix. reflexivity.
Qed.

Lemma with_icns_has_suffix (f : list Z) :
  exists pre, with_icns f = pre ++ lit ".icns".
Proof.
  unfold with_icns. destruct (test_end (word (lit ".icns")) f) eqn:E.
  - apply test_end_word. exact E.
  - exists f. reflexivity.
Qed.

(** X2. The icon file name read from the property list always ends in
    [.icns] after lines 105-107: a name that already ends in [.icns]
    is kept, any other name gets [.icns] appended, and normalising
    twice changes nothing more. *)
Theorem with_icns_ends_in_icns (f : list Z) :
  (exists pre, with_icns f = pre ++ lit ".icns")
  /\ ((exists pre, f = pre ++ lit ".icns") -> with_icns f = f)
  /\ (~ (exists pre, f = pre ++ lit ".icns") -> with_icns f = f ++ lit ".icns")
  /\ with_icns (with_icns f) = with_icns f.
Proof.
  assert (Hkeep : forall g, (exists pre, g = pre ++ lit ".icns") -> with_icns g = g).
  { intros g Hg. unfold with_icns. apply test_end_word in Hg. rewrite Hg. reflexivity. }
  pose proof (with_icns_has_suffix f) as Hends.
  split; [exact Hends|]. split; [apply Hkeep|]. split.
  - intros Hno. unfold with_icns.
    destruct (test_end (word (lit ".icns")) f) eqn:E; [|reflexivity].
    apply test_end_word in E. contradiction.
  - apply Hkeep. exact Hends.
Qed.

(** X3. Lines 101 and 115 remove exactly one trailing [.app]: a name
    [b.app] becomes [b], whatever [b] holds, and a name that does not
    end in [.app] is returned unchanged. *)
Theorem strip_app_removes_suffix (name : list Z) :
  (forall b, name = b ++ lit ".app" -> strip_app name = b)
  /\ (~ (exists b, name = b ++ lit ".app") -> strip_app name = name).
Proof.
  unfold strip_app, replace_end. split.
  - intros b ->. rewrite search_end_word_suffix.
    rewrite take_app_length. apply app_nil_r.
  - intros Hno. destruct (search_end (word (lit ".app")) name) as [p|] eqn:E; [|reflexivity].
    exfalso. apply Hno. exists (take p name). apply search_end_word_Some. exact E.
Qed.

Lemma search_extension_total (s : list Z) :
  exists p, search_end (Opt (Seq (Chr 46) (Star Dot))) s = Some p.
Proof.
  destruct (search_end (Opt (Seq (Chr 46) (Star Dot))) s) as [p|] eqn:E; [eauto|].
  pose proof (search_end_None _ _ E (length s) ltac:(lia)) as Hm.
  rewrite drop_all in Hm. discriminate.
Qed.

Lemma png_no_terminator : Forall (fun c => line_terminator c = false) (lit "png").
Proof. repeat constructor. Qed.

(** X4. The output path of line 202 always ends in [.png], keeps a
    prefix of the text given, and is a fixed point: rewriting the
    rewritten path gives the same path. *)
Theorem png_path_idempotent (output : list Z) :
  (exists p, png_path output = take p output ++ lit ".png")
  /\ png_path (png_path output) = png_path output.
Proof.
  unfold png_path, replace_end.
  destruct (search_extension_total output) as [p Hp]. rewrite Hp.
  split; [eauto|].
  apply search_end_Some in Hp as (Hle & Hm & Hmin).
  apply matches_lang, lang_extension in Hm.
  assert (Hlen : length (take p output) = p) by (rewrite length_take; lia).
  assert (Hs : search_end (Opt (Seq (Chr 46) (Star Dot))) (take p output ++ lit ".png")
               = Some p).
  { apply search_end_Some. split; [rewrite length_app; lia|]. split.
    - rewrite <- Hlen at 1. rewrite drop_app_length.
      apply matches_lang, lang_extension. right. exists (lit "png").
      split; [reflexivity | apply png_no_terminator].
    - intros q Hq.
      destruct (matches (Opt (Seq (Chr 46) (Star Dot)))
                  (drop q (take p output ++ lit ".png"))) eqn:E; [|reflexivity].
      exfalso. apply matches_lang, lang_extension in E.
      rewrite drop_app_le in E by lia.
      assert (Hne : drop q (take p output) <> []).
      { intros Hnil. apply (f_equal length) in Hnil.
        rewrite length_drop, Hlen in Hnil. simpl in Hnil. lia. }
      destruct E as [E|(t & E & Ht)].
      { apply app_eq_nil in E as [E _]. contradiction. }
      destruct (drop q (take p output)) as [|c t'] eqn:Ed; [contradiction|].
      simpl in E. injection E as -> <-.
      apply Forall_app in Ht as [Ht' _].
      assert (Hq' : matches (Opt (Seq (Chr 46) (Star Dot))) (drop q output) = true).
      { apply matches_lang, lang_extension. right.
        exists (t' ++ drop p output). split.
        - rewrite <- (take_drop p output) at 1.
          rewrite drop_app_le by lia. rewrite Ed. reflexivity.
        - apply Forall_app. split; [exact Ht'|].
          destruct Hm as [->|(t2 & -> & Ht2)]; [constructor|].
          constructor; [reflexivity | exact Ht2]. }
      rewrite (Hmin q Hq) in Hq'. discriminate. }
  rewrite Hs. rewrite <- Hlen at 1. rewrite take_app_length. reflexivity.
Qed.

(** X5. On a path without line terminators, line 202 cuts at the first
    dot of the whole path: the result is the text before the first
    dot followed by [.png], and the whole text followed by [.png]
    when there is no dot.  A dot in a directory name therefore cuts
    the path there. *)
Theorem png_path_cuts_at_first_dot (output : list Z) :
  Forall (fun c => line_terminator c = false) output ->
  exists pre,
    png_path output = pre ++ lit ".png"
    /\ Forall (fun c => c <> 46) pre
    /\ (output = pre \/ exists post, output = pre ++ 46 :: post).
Proof.
  intros Hclean. unfold png_path, replace_end.
  destruct (search_extension_total output) as [p Hp]. rewrite Hp.
  apply search_end_Some in Hp as (Hle & Hm & Hmin).
  apply matches_lang, lang_extension in Hm.
  exists (take p output). split; [reflexivity|]. split.
  - apply Forall_lookup. intros q c Hq ->.
    pose proof (lookup_lt_Some _ _ _ Hq) as Hlt. rewrite length_take in Hlt.
    rewrite lookup_take_lt in Hq by lia.
    assert (Hd : drop q output = 46 :: drop (S q) output).
    { apply drop_S. exact Hq. }
    assert (Hq' : matches (Opt (Seq (Chr 46) (Star Dot))) (drop q output) = true).
    { apply matches_lang, lang_extension. right. exists (drop (S q) output).
      split; [exact Hd|]. apply Forall_drop. exact Hclean. }
    rewrite (Hmin q ltac:(lia)) in Hq'. discriminate.
  - destruct Hm as [Hnil|(t & Ht & _)].
    + left. rewrite <- (take_drop p output) at 1. rewrite Hnil. apply app_nil_r.
    + right. exists t. rewrite <- (take_drop p output) at 1. rewrite Ht. reflexivity.
Qed.

End FileNames.

Lemma png_path_cuts_at_first_dot_witness :
  Forall (fun c => Regex.line_terminator c = false) (Regex.lit "/tmp/v1.2/icon")
  /\ exists pre,
       Paths.png_path (Regex.lit "/tmp/v1.2/icon") = pre ++ Regex.lit ".png"
       /\ Forall (fun c => c <> 46) pre
       /\ (Regex.lit "/tmp/v1.2/icon" = pre
           \/ exists post, Regex.lit "/tmp/v1.2/icon" = pre ++ 46 :: post).
Proof.
  assert (H : Forall (fun c => Regex.line_terminator c = false) (Regex.lit "/tmp/v1.2/icon"))
    by (repeat constructor).
  split; [exact H|].
  exact (png_path_cuts_at_first_dot (Regex.lit "/tmp/v1.2/icon") H).
Defined.

Example png_path_fixtures :
  Paths.png_path (Regex.lit "/tmp/v1.2/icon") = Regex.lit "/tmp/v1.png"
  /\ Paths.png_path (Regex.lit "./icon") = Regex.lit ".png"
  /\ Paths.png_path (Regex.lit "icon") = Regex.lit "icon.png"
  /\ Paths.png_path (Regex.lit "icon.icns") = Regex.lit "icon.png"
  /\ Paths.with_icns (Regex.lit "AppIcon") = Regex.lit "AppIcon.icns"
  /\ Paths.with_icns (Regex.lit "AppIcon.icns") = Regex.lit "AppIcon.icns"
  /\ Paths.strip_app (Regex.lit "My.app.app") = Regex.lit "My.app".
Proof. repeat split; vm_compute; reflexivity. Qed.


(** ** The command line *)

Section CommandLine.

Import Compositor Cli.

Variable target : Type.
Variable rm_status : target -> option Z.

Lemma unset_loop_all_pass (ts : list target) :
  Forall (fun t => failed (rm_status t) = false) ts ->
  unset_loop target rm_status ts = (ts, Continue tt).
Proof.
  induction 1 as [|t ts Ht _ IH]; simpl; [reflexivity|].
  rewrite Ht, IH. reflexivity.
Qed.

(** X6. The [unset] loop runs [fileicon rm] on the targets in order
    and stops at the first one whose exit status is a non-zero number:
    the targets after it are not touched and the process exits with
    status 1.  When no status is a non-zero number (a status of 0, or
    the null status of a child ended by a signal) every target is
    visited and the command completes. *)
Theorem unset_loop_stops_at_first_failure (ts : list target) :
  (Forall (fun t => failed (rm_status t) = false) ts
   /\ unset_loop target rm_status ts = (ts, Continue tt))
  \/ (exists pre t post,
        ts = pre ++ t :: post
        /\ Forall (fun t' => failed (rm_status t') = false) pre
        /\ failed (rm_status t) = true
        /\ unset_loop target rm_status ts = (pre ++ [t], Exit 1)).
Proof.
  induction ts as [|t ts IH].
  - left. split; [constructor | reflexivity].
  - simpl. destruct (failed (rm_status t)) eqn:Et.
    + right. exists [], t, ts. repeat split; [constructor | exact Et].
    + destruct IH as [[Hall Hrun]|(pre & t' & post & -> & Hpre & Ht' & Hrun)].
      * left. split; [constructor; assumption|]. rewrite Hrun. reflexivity.
      * right. exists (t :: pre), t', post. rewrite Hrun.
        repeat split; [constructor; assumption | exact Ht'].
Qed.

Variable glob_sync : list Z -> list (list Z).

(** The targets of a run: never an empty list; the arguments as given
    unless the only argument holds a star; the one undefined target
    when such a pattern matches nothing. *)
Lemma targets_cases (dir : list Z) (otherDirs : list (list Z)) :
  targets glob_sync dir otherDirs <> []
  /\ (otherDirs = [] -> has_star dir = true -> glob_sync dir = [] ->
      targets glob_sync dir otherDirs = [None])
  /\ (otherDirs <> [] \/ has_star dir = false ->
      targets glob_sync dir otherDirs = Some dir :: map Some otherDirs).
Proof.
  split; [|split].
  - unfold targets. destruct ((length otherDirs =? 0)%nat && has_star dir); [|discriminate].
    destruct (glob_sync dir); discriminate.
  - intros -> Hs Hg. unfold targets. simpl. rewrite Hs, Hg. reflexivity.
  - intros Hc. unfold targets.
    destruct Hc as [Hne|Hs].
    + destruct otherDirs; [contradiction | reflexivity].
    + rewrite Hs, andb_false_r. reflexivity.
Qed.

End CommandLine.

Section NameResolution.

Import Cli.

Variable basename : list Z -> list Z.
Variable resolve_icon : list Z -> option (list Z) -> option (list Z).
Variable resolve_default : list Z -> list Z.

(** X7. The options win over the property list: a non-empty
    [--keyword] is the app name and a non-empty [--input] is the icon
    file, whether [Info.plist] can be read or not and whatever it
    holds; the input file gets no [.icns] appended. *)
Theorem names_options_win (keyword input : option (list Z)) (plist : option info)
        (appDir : list Z) :
  (truthy keyword = true ->
   fst (names basename resolve_icon resolve_default keyword input plist appDir) = keyword)
  /\ (truthy input = true ->
      snd (names basename resolve_icon resolve_default keyword input plist appDir) = input).
Proof.
  unfold names, catch_names. split; intros Ht.
  - destruct plist as [contents|]; simpl; rewrite ?Ht; [|reflexivity].
    destruct (truthy input); [reflexivity|].
    destruct (resolve_icon appDir (CFBundleIconFile contents)); simpl; rewrite ?Ht; reflexivity.
  - destruct plist as [contents|]; simpl; rewrite ?Ht; reflexivity.
Qed.

(** X8. Without [--input], the icon file comes from the property list
    and ends in [.icns] when line 104 resolves it; when that line
    throws (the list names no icon file) or the list cannot be read,
    the icon file is the default [AppIcon.icns] path.  A throw of line
    104 does not lose the display name the list gave: without
    [--keyword] it stays the app name. *)
Theorem names_from_plist (keyword input : option (list Z)) (plist : option info)
        (appDir : list Z) :
  truthy input = false ->
  (forall contents f,
      plist = Some contents ->
      resolve_icon appDir (CFBundleIconFile contents) = Some f ->
      exists pre,
        snd (names basename resolve_icon resolve_default keyword input plist appDir)
        = Some (pre ++ Regex.lit ".icns"))
  /\ (plist = None
      \/ (exists contents, plist = Some contents
                           /\ resolve_icon appDir (CFBundleIconFile contents) = None) ->
      snd (names basename resolve_icon resolve_default keyword input plist appDir)
      = Some (resolve_default appDir))
  /\ (forall contents,
         plist = Some contents -> truthy keyword = false ->
         truthy (CFBundleDisplayName contents) = true ->
         fst (names basename resolve_icon resolve_default keyword input plist appDir)
         = CFBundleDisplayName contents).
Proof.
  intros Hin. unfold names, catch_names. split; [|split].
  - intros contents f -> Hf. rewrite Hin, Hf. simpl.
    destruct (with_icns_has_suffix f) as (pre & Hpre).
    exists pre. rewrite Hpre. reflexivity.
  - intros [->|(contents & -> & Hf)]; simpl; rewrite Hin; [reflexivity|].
    rewrite Hf. reflexivity.
  - intros contents -> Hk Hd. rewrite Hk, Hin.
    assert (Hor : forall d, Some (or_else (CFBundleDisplayName contents) d)
                            = CFBundleDisplayName contents).
    { intros d. destruct (CFBundleDisplayName contents) as [[|c s]|]; try discriminate.
      reflexivity. }
    rewrite !Hor.
    destruct (resolve_icon appDir (CFBundleIconFile contents)); [reflexivity|].
    rewrite Hd. reflexivity.
Qed.

End NameResolution.

Lemma names_options_win_witness :
  let basename := fun d : list Z => d in
  let resolve_icon := fun (d : list Z) (f : option (list Z)) => f in
  let resolve_default := fun d : list Z => d ++ Regex.lit "/Contents/Resources/AppIcon.icns" in
  let plist := Some {| Cli.CFBundleDisplayName := Some (Regex.lit "Mail");
                       Cli.CFBundleIconFile := Some (Regex.lit "ApplicationIcon") |} in
  fst (Cli.names basename resolve_icon resolve_default (Some (Regex.lit "Spark"))
         (Some (Regex.lit "art.png")) plist (Regex.lit "/Applications/Mail.app"))
  = Some (Regex.lit "Spark")
  /\ snd (Cli.names basename resolve_icon resolve_default (Some (Regex.lit "Spark"))
            (Some (Regex.lit "art.png")) plist (Regex.lit "/Applications/Mail.app"))
     = Some (Regex.lit "art.png").
Proof.
  intros basename resolve_icon resolve_default plist.
  pose proof (names_options_win basename resolve_icon resolve_default
                (Some (Regex.lit "Spark")) (Some (Regex.lit "art.png")) plist
                (Regex.lit "/Applications/Mail.app")) as [Hk Hi].
  split; [apply Hk | apply Hi]; reflexivity.
Defined.

Lemma names_from_plist_witness :
  let basename := fun d : list Z => d in
  let resolve_icon := fun (d : list Z) (f : option (list Z)) =>
                        match f with
                        | Some n => Some (d ++ Regex.lit "/Contents/Resources/" ++ n)
                        | None => None
                        end in
  let resolve_default := fun d : list Z => d ++ Regex.lit "/Contents/Resources/AppIcon.icns" in
  let plist := Some {| Cli.CFBundleDisplayName := Some (Regex.lit "Mail");
                       Cli.CFBundleIconFile := None |} in
  Cli.truthy None = false
  /\ Cli.names basename resolve_icon resolve_default None None plist (Regex.lit "/A/Mail.app")
     = (Some (Regex.lit "Mail"), Some (Regex.lit "/A/Mail.app/Contents/Resources/AppIcon.icns")).
Proof.
  intros basename resolve_icon resolve_default plist.
  split; [reflexivity|].
  destruct (names_from_plist basename resolve_icon resolve_default None None plist
              (Regex.lit "/A/Mail.app") eq_refl) as (_ & Hsnd & Hfst).
  apply injective_projections.
  - apply (Hfst _ eq_refl eq_refl eq_refl).
  - apply Hsnd. right. eexists. split; reflexivity.
Defined.

Example unset_fixture :
  Cli.unset_loop (list Z)
    (fun t => match t with
              | [98] => Some 2
              | [99] => None
              | _ => Some 0
              end)
    [[97]; [99]; [98]; [100]]
  = ([[97]; [99]; [98]], Compositor.Exit 1).
Proof. reflexivity. Qed.


(** ** More on the reordering loop *)

Section ReorderEdges.

Import Jp2.

Lemma typed_get_fraction (data : list Z) (num : Z) :
  num mod 4 <> 0 -> Js.typed_get data (num # 4) = None.
Proof.
  intros Hm. unfold Js.typed_get. cbv zeta.
  replace (Qeq_bool (num # 4) (inject_Z (Qfloor (num # 4)))) with false; [reflexivity|].
  symmetry. apply not_true_iff_false. intros H. apply Qeq_bool_iff in H.
  unfold Qeq, Qfloor, inject_Z in H. cbn [Qnum Qden] in H.
  apply Hm. replace num with (num / 4 * 4) by lia. apply Z.mod_mul. lia.
Qed.

Lemma source_index_quarters (len i : nat) :
  source_index len i
  = (Z.of_nat len * (Z.of_nat i mod 4) * 1 + Js.Math_round (Z.of_nat i # 4) * 4) # 4.
Proof. reflexivity. Qed.

(** X9. On a sample buffer of any length, the bytes at the output
    indices that are multiples of 4 are the samples at the start of
    the buffer in order, [output[4k] = data[k]] (as a byte), and an
    output index whose source index [(length / 4) * (i % 4) + ...] is
    not a whole number gets 0: with a length that is not a multiple
    of 4 the other channels are not read from the buffer. *)
Theorem reorder_any_length (data : list Z) (i : nat) :
  (i < length data)%nat ->
  ((i mod 4 = 0)%nat ->
   reorder data !! i = Some (Js.ToUint8 (Js.or_zero (data !! (i / 4)%nat))))
  /\ ((Z.of_nat (length data) * Z.of_nat (i mod 4)) mod 4 <> 0 ->
      reorder data !! i = Some 0).
Proof.
  intros Hi. rewrite (reorder_lookup data i Hi). split.
  - intros H0. do 3 f_equal. unfold Js.typed_get, source_index.
    replace (Z.of_nat i mod 4) with 0
      by (change 4 with (Z.of_nat 4); rewrite <- Nat2Z.inj_mod, H0; reflexivity).
    rewrite Math_round_quarter.
    assert (Hr : (Z.of_nat i + 2) / 4 = Z.of_nat (i / 4)).
    { replace (Z.of_nat i + 2) with (Z.of_nat (i + 2)) by lia.
      change 4 with (Z.of_nat 4). rewrite <- Nat2Z.inj_div. f_equal.
      pose proof (Nat.div_mod_eq i 4) as Hdm.
      symmetry. apply (Nat.div_unique (i + 2) 4 (i / 4) 2); lia. }
    rewrite Hr.
    assert (Hq : (Z.of_nat (length data) # 4) * inject_Z 0 + inject_Z (Z.of_nat (i / 4))
                 == inject_Z (Z.of_nat (i / 4))) by ring.
    assert (Hfl : Qfloor ((Z.of_nat (length data) # 4) * inject_Z 0
                          + inject_Z (Z.of_nat (i / 4))) = Z.of_nat (i / 4)).
    { rewrite Hq. apply Qfloor_Z. }
    cbv zeta. rewrite Hfl.
    replace (Qeq_bool _ _) with true by (symmetry; apply Qeq_bool_iff; exact Hq).
    replace (0 <=? Z.of_nat (i / 4)) with true by (symmetry; apply Z.leb_le; lia).
    simpl. rewrite Nat2Z.id. reflexivity.
  - intros Hfrac. rewrite source_index_quarters, typed_get_fraction; [reflexivity|].
    intros Hm. apply Hfrac.
    replace (Z.of_nat (i mod 4)) with (Z.of_nat i mod 4)
      by (change 4 with (Z.of_nat 4) at 1; rewrite <- Nat2Z.inj_mod; reflexivity).
    rewrite Z.mul_1_r in Hm.
    rewrite Z.mod_add in Hm by lia. exact Hm.
Qed.

End ReorderEdges.

Lemma reorder_any_length_witness :
  (1 < length [1; 2; 3; 4; 5; 6]%Z)%nat
  /\ ((1 mod 4 = 0)%nat ->
      Jp2.reorder [1; 2; 3; 4; 5; 6] !! 1%nat
      = Some (Js.ToUint8 (Js.or_zero ([1; 2; 3; 4; 5; 6] !! (1 / 4)%nat))))
  /\ ((Z.of_nat (length [1; 2; 3; 4; 5; 6]%Z) * Z.of_nat (1 mod 4)) mod 4 <> 0 ->
      Jp2.reorder [1; 2; 3; 4; 5; 6] !! 1%nat = Some 0).
Proof.
  assert (H : (1 < length [1; 2; 3; 4; 5; 6]%Z)%nat) by (simpl; lia).
  split; [exact H|].
  exact (reorder_any_length [1; 2; 3; 4; 5; 6] 1 H).
Defined.

Section ReorderLostSample.

Import Jp2.

(** X10. On a buffer of four planes of [n] samples the loop never
    reads the first sample of plane 2 (flat index [2n]): whatever
    value stands there, the output is the same. *)
Theorem reorder_ignores_first_sample_of_plane_2 (data : list Z) (n : nat) (v : Z) :
  length data = (4 * n)%nat ->
  reorder (<[ (2 * n)%nat := v ]> data) = reorder data.
Proof.
  intros Hlen.
  assert (Hlen' : length (<[ (2 * n)%nat := v ]> data) = (4 * n)%nat)
    by (rewrite length_insert; exact Hlen).
  apply list_eq. intros i.
  destruct (Nat.lt_ge_cases i (4 * n)) as [Hi|Hi].
  - rewrite !reorder_lookup by lia.
    rewrite (typed_get_planar _ n i Hlen'), (typed_get_planar _ n i Hlen).
    rewrite list_lookup_insert_ne; [reflexivity|].
    pose proof (rounded_offset_cases i) as Hc.
    pose proof (Nat.div_mod_eq i 4) as Hdm.
    pose proof (Nat.mod_upper_bound i 4 ltac:(lia)) as Hm.
    destruct (Nat.ltb_spec (i mod 4) 2) as [Hlt|Hge]; nia.
  - rewrite !lookup_ge_None_2; [reflexivity | |]; rewrite reorder_length; lia.
Qed.

End ReorderLostSample.

Lemma reorder_ignores_first_sample_of_plane_2_witness :
  length [10; 11; 20; 21; 30; 31; 40; 41]%Z = (4 * 2)%nat
  /\ Jp2.reorder (<[ (2 * 2)%nat := 99 ]> [10; 11; 20; 21; 30; 31; 40; 41])
     = Jp2.reorder [10; 11; 20; 21; 30; 31; 40; 41].
Proof.
  split; [reflexivity|].
  exact (reorder_ignores_first_sample_of_plane_2
           [10; 11; 20; 21; 30; 31; 40; 41] 2 99 eq_refl).
Defined.

(** ** More on the selection and on the mask *)

Section SelectionOrder.

Import Icns Canvas Compositor.

Variable isImageType : string -> bool.
Variable parse : list Z -> option (list (string * list Z)).
Variable read : list Z -> option image.

(** X11. When one image-tagged payload is strictly longer than every
    other image-tagged payload, it is the one selected in whatever
    order the container lists its entries. *)
Theorem subIconBuffer_order_independent
        (entries entries' : list (string * list Z)) (k : string) (v : list Z) :
  Permutation entries entries' ->
  In (k, v) entries -> isImageType k = true ->
  (forall k' v', In (k', v') entries -> isImageType k' = true -> v' <> v ->
                 (length v' < length v)%nat) ->
  subIconBuffer isImageType entries' = Some v.
Proof.
  intros Hperm Hin Hk Hlong.
  assert (Hin' : In (k, v) entries') by (eapply Permutation_in; eassumption).
  pose proof (subIconBuffer_spec isImageType entries') as Hs.
  destruct (subIconBuffer isImageType entries') as [v'|].
  - destruct Hs as (es1 & k2 & es2 & Heq & Hk2 & H1 & H2).
    destruct (decide (v' = v)) as [->|Hne]; [reflexivity|]. exfalso.
    assert (Hlt : (length v' < length v)%nat).
    { apply (Hlong k2 v'); [|exact Hk2|exact Hne].
      apply (Permutation_in _ (Permutation_sym Hperm)).
      rewrite Heq. apply in_or_app. right. left. reflexivity. }
    rewrite Heq in Hin'. apply in_app_or in Hin' as [Hin'|[Hin'|Hin']].
    + rewrite Forall_forall in H1. apply list_elem_of_In in Hin'.
      specialize (H1 _ Hin' Hk). simpl in H1. lia.
    + injection Hin' as _ Hv. congruence.
    + rewrite Forall_forall in H2. apply list_elem_of_In in Hin'.
      specialize (H2 _ Hin' Hk). simpl in H2. lia.
  - rewrite Forall_forall in Hs. apply list_elem_of_In in Hin'.
    specialize (Hs _ Hin'). simpl in Hs. congruence.
Qed.

(** X12. Once the container parses and holds an image-tagged entry,
    the selected payload is the only buffer the image reader is given:
    when the reader rejects it the run exits with status 1, and the
    bytes of the file itself are not tried. *)
Theorem selected_payload_is_final (file : list Z) (entries : list (string * list Z)) :
  parse file = Some entries ->
  Exists (fun e => isImageType (fst e) = true) entries ->
  exists v,
    first_longest isImageType entries v
    /\ iconBuffer isImageType parse file = v
    /\ originalIcon isImageType parse read file
       = match read v with
         | Some im => Continue im
         | None => Exit 1
         end.
Proof.
  intros Hp Hex.
  pose proof (subIconBuffer_spec isImageType entries) as Hs.
  unfold originalIcon, iconBuffer. rewrite Hp.
  destruct (subIconBuffer isImageType entries) as [v|].
  - exists v. split; [exact Hs|]. split; reflexivity.
  - exfalso. apply Exists_exists in Hex as (e & Hin & He).
    rewrite Forall_forall in Hs. specialize (Hs e Hin). congruence.
Qed.

End SelectionOrder.

Section Stencil.

Import Canvas Compositor.

(** X13. With a binary stencil (every mask pixel 0 or [0xFFFFFFFF]) the
    masking scan keeps the canvas pixel where the mask pixel is set
    and writes 0, transparent black, where it is clear. *)
Theorem apply_mask_stencil (size : nat) (mask im : image) :
  shaped size size mask -> shaped size size im ->
  Forall (fun m => m = 0 \/ m = 4294967295) (pixels mask) ->
  Forall uint32 (pixels im) ->
  exists out,
    apply_mask size mask im = Some out
    /\ forall x y, (x < size)%nat -> (y < size)%nat ->
         exists m c,
           getPixelColor mask x y = Some m /\ getPixelColor im x y = Some c
           /\ getPixelColor out x y = Some (if m =? 0 then 0 else c).
Proof.
  intros Hm Hs Hst Hr.
  destruct (apply_mask_spec size mask im Hm Hs) as (out & Hrun & Hout & Hpix).
  exists out. split; [exact Hrun|].
  intros x y Hx Hy. destruct (Hpix x y Hx Hy) as (m & c & Hgm & Hgc & Hgo).
  exists m, c. split; [exact Hgm|]. split; [exact Hgc|].
  rewrite Hgo. f_equal.
  pose proof (getPixelColor_uint32 im x y c Hr Hgc) as Hc.
  assert (Hmv : m = 0 \/ m = 4294967295).
  { unfold getPixelColor in Hgm. destruct (in_bounds mask x y); [|discriminate].
    rewrite Forall_lookup in Hst. exact (Hst _ _ Hgm). }
  rewrite ushr0_bitand. unfold uint32 in Hc. rewrite (Z.mod_small c) by lia.
  destruct Hmv as [->| ->].
  - reflexivity.
  - change (4294967295 mod 2 ^ 32) with (Z.ones 32). change (4294967295 =? 0) with false.
    rewrite Z.land_comm, Z.land_ones by lia. apply Z.mod_small. lia.
Qed.

End Stencil.

Lemma subIconBuffer_order_independent_witness :
  let isImageType := fun k => String.eqb k "ic09" || String.eqb k "ic10" in
  let entries := [("ic09"%string, [4; 5]); ("TOC "%string, [1; 2; 3; 4]);
                  ("ic10"%string, [6; 7; 8])] in
  let entries' := [("ic10"%string, [6; 7; 8]); ("ic09"%string, [4; 5]);
                   ("TOC "%string, [1; 2; 3; 4])] in
  Permutation entries entries'
  /\ Icns.subIconBuffer isImageType entries' = Some [6; 7; 8].
Proof.
  intros isImageType entries entries'.
  assert (Hp : Permutation entries entries').
  { symmetry.
    exact (Permutation_cons_app
             [("ic09"%string, [4; 5]); ("TOC "%string, [1; 2; 3; 4])] []
             ("ic10"%string, [6; 7; 8])
             (Permutation_refl _)). }
  split; [exact Hp|].
  apply (subIconBuffer_order_independent isImageType entries entries' "ic10" [6; 7; 8] Hp).
  - right. right. left. reflexivity.
  - reflexivity.
  - intros k' v' [H|[H|[H|[]]]] Hk Hne; injection H as <- <-;
      try discriminate; try contradiction; simpl; lia.
Defined.

Lemma selected_payload_is_final_witness :
  let isImageType := fun k => String.eqb k "ic10" in
  let parse := fun file : list Z => Some [("ic10"%string, file)] in
  let read := fun buf : list Z => @None Canvas.image in
  parse [1; 2] = Some [("ic10"%string, [1; 2])]
  /\ exists v,
       Icns.first_longest isImageType [("ic10"%string, [1; 2])] v
       /\ Icns.iconBuffer isImageType parse [1; 2] = v
       /\ Compositor.originalIcon isImageType parse read [1; 2]
          = match read v with
            | Some im => Compositor.Continue im
            | None => Compositor.Exit 1
            end.
Proof.
  intros isImageType parse read. split; [reflexivity|].
  apply (selected_payload_is_final isImageType parse read [1; 2] [("ic10"%string, [1; 2])]).
  - reflexivity.
  - apply Exists_cons_hd. reflexivity.
Defined.

Lemma apply_mask_stencil_witness :
  let mask := {| Canvas.width := 2; Canvas.height := 2;
                 Canvas.pixels := [4294967295; 0; 0; 4294967295] |} in
  let im := {| Canvas.width := 2; Canvas.height := 2;
               Canvas.pixels := [4278255615; 305419896; 16711935; 2882400001] |} in
  exists out,
    Compositor.apply_mask 2 mask im = Some out
    /\ forall x y, (x < 2)%nat -> (y < 2)%nat ->
         exists m c,
           Canvas.getPixelColor mask x y = Some m /\ Canvas.getPixelColor im x y = Some c
           /\ Canvas.getPixelColor out x y = Some (if m =? 0 then 0 else c).
Proof.
  intros mask im. apply (apply_mask_stencil 2 mask im).
  - repeat split; reflexivity.
  - repeat split; reflexivity.
  - repeat (apply Forall_cons; split; [first [left; reflexivity | right; reflexivity]|]).
    apply Forall_nil_2.
  - unfold Canvas.uint32. repeat constructor; lia.
Defined.


(** ** More on the alpha channel *)

Section AlphaChannel.

Import Canvas Compositor.

Lemma alpha_land (m c : Z) : alpha (Z.land m c) = Z.land (alpha m) (alpha c).
Proof.
  unfold alpha. apply Z.bits_inj'. intros k Hk. rewrite !Z.land_spec.
  destruct (Z.testbit m k), (Z.testbit c k), (Z.testbit 255 k); reflexivity.
Qed.

Lemma alpha_range (p : Z) : 0 <= alpha p < 256.
Proof.
  unfold alpha. change 255 with (Z.ones 8). rewrite Z.land_ones by lia.
  apply Z.mod_pos_bound. lia.
Qed.

Lemma land_le_r (a b : Z) : 0 <= a -> 0 <= b -> Z.land a b <= b.
Proof.
  intros Ha Hb.
  assert (Hsum : Z.land a b + Z.ldiff b a = b).
  { rewrite Z.add_nocarry_lxor.
    - apply Z.bits_inj'. intros k Hk.
      rewrite Z.lxor_spec, Z.land_spec, Z.ldiff_spec.
      destruct (Z.testbit a k), (Z.testbit b k); reflexivity.
    - apply Z.bits_inj'. intros k Hk.
      rewrite !Z.land_spec, Z.ldiff_spec, Z.bits_0.
      destruct (Z.testbit a k), (Z.testbit b k); reflexivity. }
  assert (Hd : 0 <= Z.ldiff b a) by (apply Z.ldiff_nonneg; left; exact Hb).
  lia.
Qed.

(** X14. Masking never makes a pixel more opaque: the alpha byte of
    every result pixel is the bitwise AND of the alpha bytes of the
    mask pixel and of the canvas pixel, and is at most the alpha byte
    the canvas pixel had. *)
Theorem apply_mask_alpha_not_raised (size : nat) (mask im : image) :
  shaped size size mask -> Forall uint32 (pixels mask) ->
  shaped size size im -> Forall uint32 (pixels im) ->
  exists out,
    apply_mask size mask im = Some out
    /\ forall x y, (x < size)%nat -> (y < size)%nat ->
         exists m c p,
           getPixelColor mask x y = Some m /\ getPixelColor im x y = Some c
           /\ getPixelColor out x y = Some p
           /\ alpha p = Z.land (alpha m) (alpha c)
           /\ alpha p <= alpha c.
Proof.
  intros Hm Hmr Hs Hsr.
  destruct (apply_mask_spec size mask im Hm Hs) as (out & Hrun & Hout & Hpix).
  exists out. split; [exact Hrun|].
  intros x y Hx Hy. destruct (Hpix x y Hx Hy) as (m & c & Hgm & Hgc & Hgo).
  exists m, c, (Z.land m c). split; [exact Hgm|]. split; [exact Hgc|].
  split.
  - rewrite Hgo. f_equal. apply ushr0_bitand_uint32.
    + exact (getPixelColor_uint32 mask x y m Hmr Hgm).
    + exact (getPixelColor_uint32 im x y c Hsr Hgc).
  - rewrite alpha_land. split; [reflexivity|].
    apply land_le_r; apply alpha_range.
Qed.

End AlphaChannel.

Lemma apply_mask_alpha_not_raised_witness :
  let mask := {| Canvas.width := 2; Canvas.height := 2;
                 Canvas.pixels := [4294967295; 0; 2155905152; 255] |} in
  let im := {| Canvas.width := 2; Canvas.height := 2;
               Canvas.pixels := [4278255615; 305419896; 16711935; 2882400001] |} in
  exists out,
    Compositor.apply_mask 2 mask im = Some out
    /\ forall x y, (x < 2)%nat -> (y < 2)%nat ->
         exists m c p,
           Canvas.getPixelColor mask x y = Some m /\ Canvas.getPixelColor im x y = Some c
           /\ Canvas.getPixelColor out x y = Some p
           /\ Canvas.alpha p = Z.land (Canvas.alpha m) (Canvas.alpha c)
           /\ Canvas.alpha p <= Canvas.alpha c.
Proof.
  intros mask im. apply (apply_mask_alpha_not_raised 2 mask im).
  - repeat split; reflexivity.
  - unfold Canvas.uint32. repeat constructor; lia.
  - repeat split; reflexivity.
  - unfold Canvas.uint32. repeat constructor; lia.
Defined.
